(** * ConfigBits: a bit-field schema over one 32-bit integer

    A shallow embedding of [dist/ConfigBits.js] (classes [BitMap] and
    [ConfigBits]) together with the fragment of the JavaScript semantics
    the code relies on: the Number type, the 32-bit conversions behind the
    bitwise operators, property assignment and lookup on plain objects,
    and insertion into a [Map]. *)

From Stdlib Require Import ZArith QArith List String Ascii Bool Lia.
Import ListNotations.

Local Open Scope string_scope.
Local Open Scope list_scope.
Local Open Scope Z_scope.

(** ** JavaScript numbers *)

(** A Number is NaN, an infinity, or a finite value.  Every finite double
    is a rational, and the operations the code applies to numbers
    (comparison with a constant, truncation, the 32-bit conversions) are
    exact on rationals, so finite values are carried as [Q].  The two
    zeros are identified: no operation used here tells them apart. *)
Inductive Num : Type :=
| NaN
| PosInf
| NegInf
| Fin (q : Q).

Definition num_of_Z (z : Z) : Num := Fin (inject_Z z).

(** [a > b] and [a < b] against a finite constant [c]. *)
Definition num_gt (n : Num) (c : Z) : bool :=
  match n with
  | NaN => false
  | PosInf => true
  | NegInf => false
  | Fin q => match Qcompare q (inject_Z c) with Gt => true | _ => false end
  end.

Definition num_lt (n : Num) (c : Z) : bool :=
  match n with
  | NaN => false
  | PosInf => false
  | NegInf => true
  | Fin q => match Qcompare q (inject_Z c) with Lt => true | _ => false end
  end.

(** [a !== c] on numbers. *)
Definition num_neq (n : Num) (c : Z) : bool :=
  match n with
  | Fin q => negb (Qeq_bool q (inject_Z c))
  | _ => true
  end.

(** Truncation toward zero, the first step of every integer conversion. *)
Definition trunc (q : Q) : Z := Z.quot (Qnum q) (Z.pos (Qden q)).

(** Reduction of an integer to the signed 32-bit range. *)
Definition wrap32 (z : Z) : Z :=
  let m := z mod 2 ^ 32 in
  if 2 ^ 31 <=? m then m - 2 ^ 32 else m.

Definition ToInt32 (n : Num) : Z :=
  match n with
  | Fin q => wrap32 (trunc q)
  | _ => 0
  end.

Definition ToUint16 (n : Num) : Z :=
  match n with
  | Fin q => trunc q mod 2 ^ 16
  | _ => 0
  end.

(** [a >> b], [a << b], [a & b], [a | b].  The shift count is a running
    sum of widths, an integer; only its low five bits are used. *)
Definition js_shr (a : Num) (count : Z) : Z :=
  Z.shiftr (ToInt32 a) (count mod 32).

Definition js_shl (a : Num) (count : Z) : Z :=
  wrap32 (Z.shiftl (ToInt32 a) (count mod 32)).

Definition js_and (a b : Z) : Z := Z.land a b.
Definition js_or (a b : Z) : Z := Z.lor a b.

(** [2 ** bits - 1] for an integer [bits >= 0].  The subtraction is exact
    up to 2^53 - 1; above that the double nearest to [2^bits - 1] is
    [2^bits] itself, and from [bits = 1024] on the power is [Infinity]. *)
Definition pow2_minus_1 (bits : Z) : Num :=
  if bits <=? 53 then num_of_Z (2 ^ bits - 1)
  else if bits <=? 1023 then num_of_Z (2 ^ bits)
  else PosInf.

(** ** Values *)

(** The built-in and user classes whose identity the code tests. *)
Inductive Ctor : Type :=
| CString | CNumber | CBoolean | CObject | CMap | CFunction | CBitMap.

Definition Ctor_eqb (a b : Ctor) : bool :=
  match a, b with
  | CString, CString | CNumber, CNumber | CBoolean, CBoolean
  | CObject, CObject | CMap, CMap | CFunction, CFunction
  | CBitMap, CBitMap => true
  | _, _ => false
  end.

(** The values stored under the keys of a decoded object: the declared
    type of [fromObject]'s parameter is [{[key: string]: number | boolean}]. *)
Inductive Prim : Type :=
| PNum (n : Num)
| PBool (b : bool).

(** [!!v], [+v]. *)
Definition truthy (p : Prim) : bool :=
  match p with
  | PBool b => b
  | PNum NaN => false
  | PNum (Fin q) => negb (Qeq_bool q (inject_Z 0))
  | PNum _ => true
  end.

Definition ToNumber (p : Prim) : Num :=
  match p with
  | PNum n => n
  | PBool true => num_of_Z 1
  | PBool false => num_of_Z 0
  end.

(** A plain object, as the list of its own properties in enumeration
    order, and a [Map], as the list of its entries in insertion order. *)
Definition Obj : Type := list (string * Prim).
Definition JsMap : Type := list (string * Prim).

(** An instance of [BitMap].  [#bits] holds a one-character string; it is
    carried as the code unit of that character. *)
Record BitMap : Type := mkBitMap {
  name : string;
  bits_char : N;
  dataType : Ctor
}.

(** The getter [bits]: [this.#bits.charCodeAt(0)]. *)
Definition bits (b : BitMap) : Z := Z.of_N (bits_char b).

(** The values that reach the public methods: primitives, class objects
    ([Number], [Boolean], ...), plain objects with number or boolean
    properties, Maps and BitMap instances.  Wrapper objects such as
    [new Number(1)] and objects made to carry the [constructor] of another
    class are left out; what is proved about the tests
    [x?.constructor !== K] is therefore stated on the outcome of the test
    ([has_constructor]), not on the kind of the value. *)
Inductive Value : Type :=
| VUndefined
| VNull
| VBool (b : bool)
| VNum (n : Num)
| VStr (s : string)
| VCtor (c : Ctor)
| VObject (o : Obj)
| VMap (m : JsMap)
| VBitMap (b : BitMap).

Inductive Error : Type :=
| TypeError
| RangeError
| ArgumentError
| TypeMismatchError.

Inductive Result (A : Type) : Type :=
| Ok (a : A)
| Throw (e : Error).
Arguments Ok {A} a.
Arguments Throw {A} e.

(** ** Plain objects and Maps *)

Fixpoint own (o : list (string * Prim)) (k : string) : option Prim :=
  match o with
  | [] => None
  | (k', v) :: o' => if String.eqb k' k then Some v else own o' k
  end.

Fixpoint update (o : list (string * Prim)) (k : string) (v : Prim)
  : list (string * Prim) :=
  match o with
  | [] => []
  | (k', v') :: o' =>
      if String.eqb k' k then (k', v) :: o' else (k', v') :: update o' k v
  end.

(** Array indices: the canonical decimal strings of 0 .. 2^32 - 2.  An
    object enumerates its array-index keys first, in ascending numeric
    order, and its other string keys after them, in creation order. *)
Definition digit_of (c : ascii) : option N :=
  let n := N_of_ascii c in
  if ((48 <=? n) && (n <=? 57))%N then Some (n - 48)%N else None.

Fixpoint digits_value (s : string) (acc : N) : option N :=
  match s with
  | EmptyString => Some acc
  | String c s' =>
      match digit_of c with
      | Some d => digits_value s' (10 * acc + d)%N
      | None => None
      end
  end.

Definition array_index (s : string) : option N :=
  match s with
  | EmptyString => None
  | String c s' =>
      if Ascii.eqb c "0"%char
      then match s' with EmptyString => Some 0%N | _ => None end
      else match digits_value s 0 with
           | Some n => if (n <? 2 ^ 32 - 1)%N then Some n else None
           | None => None
           end
  end.

Fixpoint insert_index (o : Obj) (k : string) (i : N) (v : Prim) : Obj :=
  match o with
  | [] => [(k, v)]
  | (k', v') :: o' =>
      match array_index k' with
      | Some j =>
          if (i <? j)%N then (k, v) :: o
          else (k', v') :: insert_index o' k i v
      | None => (k, v) :: o
      end
  end.

(** [o[k] = v] on a plain object whose prototype is [Object.prototype].
    An own property is overwritten in place.  Otherwise the key
    ["__proto__"] reaches the inherited setter, which ignores a value that
    is neither an object nor [null]; any other key becomes a new own
    property. *)
Definition obj_set (o : Obj) (k : string) (v : Prim) : Obj :=
  match own o k with
  | Some _ => update o k v
  | None =>
      if String.eqb k "__proto__" then o
      else match array_index k with
           | Some i => insert_index o k i v
           | None => o ++ [(k, v)]
           end
  end.

(** The properties every plain object inherits from [Object.prototype];
    each is a function, except ["__proto__"], whose getter returns the
    prototype object. *)
Definition Object_prototype_keys : list string :=
  [ "constructor"; "__defineGetter__"; "__defineSetter__"; "hasOwnProperty";
    "__lookupGetter__"; "__lookupSetter__"; "isPrototypeOf";
    "propertyIsEnumerable"; "toString"; "valueOf"; "__proto__";
    "toLocaleString" ].

Definition inherited (k : string) : bool :=
  existsb (String.eqb k) Object_prototype_keys.

(** The outcome of [o[k]]. *)
Inductive Lookup : Type :=
| LOwn (p : Prim)
| LInherited
| LUndefined.

Definition obj_get (o : Obj) (k : string) : Lookup :=
  match own o k with
  | Some p => LOwn p
  | None => if inherited k then LInherited else LUndefined
  end.

(** [x || 0] followed by unary [+]: an inherited function or object is
    truthy and converts to NaN. *)
Definition or_zero_ToNumber (l : Lookup) : Num :=
  match l with
  | LOwn p => if truthy p then ToNumber p else num_of_Z 0
  | LInherited => NaN
  | LUndefined => num_of_Z 0
  end.

(** [m.set(k, v)]: an existing entry keeps its place. *)
Definition map_set (m : JsMap) (k : string) (v : Prim) : JsMap :=
  match own m k with
  | Some _ => update m k v
  | None => m ++ [(k, v)]
  end.

(** ** The tests [x?.constructor !== K] *)

(** [x?.constructor], when it is a class: [undefined] and [null] have
    none; a primitive or an instance has its class; in a plain object an
    own property named ["constructor"] shadows the inherited one, and its
    value, a number or a boolean, is no class. *)
Definition constructor_of (v : Value) : option Ctor :=
  match v with
  | VUndefined | VNull => None
  | VBool _ => Some CBoolean
  | VNum _ => Some CNumber
  | VStr _ => Some CString
  | VCtor _ => Some CFunction
  | VObject o => match own o "constructor" with
                 | Some _ => None
                 | None => Some CObject
                 end
  | VMap _ => Some CMap
  | VBitMap _ => Some CBitMap
  end.

Definition has_constructor (v : Value) (c : Ctor) : bool :=
  match constructor_of v with
  | Some c' => Ctor_eqb c' c
  | None => false
  end.

(** The payload of a value that passed its test. *)
Definition string_of (v : Value) : string :=
  match v with VStr s => s | _ => "" end.

Definition number_of (v : Value) : Num :=
  match v with VNum n => n | _ => NaN end.

Definition object_of (v : Value) : Obj :=
  match v with VObject o => o | _ => [] end.

(** ** class BitMap *)

Definition is_ctor (v : Value) (c : Ctor) : bool :=
  match v with VCtor c' => Ctor_eqb c' c | _ => false end.

Definition ctor_of (v : Value) : Ctor :=
  match v with VCtor c => c | _ => CNumber end.

(** [String.fromCharCode(bits)] keeps the low 16 bits of the truncated
    argument. *)
Definition BitMap_new (name bits dataType : Value) : Result BitMap :=
  let dataType := match dataType with VUndefined => VCtor CNumber | d => d end in
  if negb (has_constructor name CString) then Throw TypeError
  else if negb (has_constructor bits CNumber) then Throw TypeError
  else if num_gt (number_of bits) 32 then Throw RangeError
  else if negb (is_ctor dataType CNumber) && negb (is_ctor dataType CBoolean)
  then Throw TypeError
  else if is_ctor dataType CBoolean && num_neq (number_of bits) 1
  then Throw TypeMismatchError
  else Ok (mkBitMap (string_of name)
                    (Z.to_N (ToUint16 (number_of bits)))
                    (ctor_of dataType)).

(** ** class ConfigBits *)

(** The private array [#bitMap]. *)
Record ConfigBits : Type := mkConfigBits { bitMap : list BitMap }.

(** The constructor's loop; [bitMap?.constructor !== BitMap] holds exactly
    of the values that are not [BitMap] instances, and [32 <? totalBits]
    is [totalBits > 32]. *)
Fixpoint ConfigBits_loop (bitMaps : list Value) (totalBits : Z)
    (acc : list BitMap) : Result ConfigBits :=
  match bitMaps with
  | [] => Ok (mkConfigBits acc)
  | v :: rest =>
      match v with
      | VBitMap b =>
          let totalBits := totalBits + bits b in
          if 32 <? totalBits then Throw RangeError
          else ConfigBits_loop rest totalBits (acc ++ [b])
      | _ => Throw TypeError
      end
  end.

Definition ConfigBits_new (bitMaps : list Value) : Result ConfigBits :=
  match bitMaps with
  | [] => Throw ArgumentError
  | _ => ConfigBits_loop bitMaps 0 []
  end.

(** The value extracted for one field:
    [(integer >> position) & (2 ** bitMap.bits - 1)], then [!!value] for a
    Boolean field. *)
Definition field_value (integer : Num) (position : Z) (b : BitMap) : Prim :=
  let value := js_and (js_shr integer position)
                      (ToInt32 (pow2_minus_1 (bits b))) in
  match dataType b with
  | CBoolean => PBool (negb (value =? 0))
  | _ => PNum (num_of_Z value)
  end.

Fixpoint toObject_loop (fields : list BitMap) (integer : Num) (position : Z)
    (result : Obj) : Obj :=
  match fields with
  | [] => result
  | b :: rest =>
      toObject_loop rest integer (position + bits b)
        (obj_set result (name b) (field_value integer position b))
  end.

(** [toObject] and [toMap]: the two tests on the input, then the loop
    over [#bitMap] from position 0 and an empty result. *)
Definition toObject (this : ConfigBits) (integer : Value) : Result Obj :=
  if negb (has_constructor integer CNumber) then Throw TypeError
  else
    let n := number_of integer in
    if num_gt n 4294967295 || num_lt n (-2147483648) then Throw RangeError
    else Ok (toObject_loop (bitMap this) n 0 []).

Fixpoint toMap_loop (fields : list BitMap) (integer : Num) (position : Z)
    (result : JsMap) : JsMap :=
  match fields with
  | [] => result
  | b :: rest =>
      toMap_loop rest integer (position + bits b)
        (map_set result (name b) (field_value integer position b))
  end.

Definition toMap (this : ConfigBits) (integer : Value) : Result JsMap :=
  if negb (has_constructor integer CNumber) then Throw TypeError
  else
    let n := number_of integer in
    if num_gt n 4294967295 || num_lt n (-2147483648) then Throw RangeError
    else Ok (toMap_loop (bitMap this) n 0 []).

(** [fromObject]: the result of [|=] is always a signed 32-bit integer, so
    the running [result] is carried as such. *)
Fixpoint fromObject_loop (fields : list BitMap) (object : Obj)
    (position : Z) (result : Z) : Z :=
  match fields with
  | [] => result
  | b :: rest =>
      let value := or_zero_ToNumber (obj_get object (name b)) in
      fromObject_loop rest object (position + bits b)
        (js_or result (js_shl value position))
  end.

Definition fromObject (this : ConfigBits) (object : Value) : Result Z :=
  if negb (has_constructor object CObject) then Throw TypeError
  else Ok (fromObject_loop (bitMap this) (object_of object) 0 0).

(** ** The scenario of the documentation *)

Definition scenario_fields : list (Value * Value * Value) :=
  [ (VStr "auto_save", VNum (num_of_Z 1), VCtor CBoolean);
    (VStr "indent_type", VNum (num_of_Z 1), VUndefined);
    (VStr "indent_size", VNum (num_of_Z 2), VUndefined) ].

Definition scenario_object : Obj :=
  [ ("auto_save", PBool true);
    ("indent_type", PNum (num_of_Z 0));
    ("indent_size", PNum (num_of_Z 3)) ].

(** [new ConfigBits(...fields.map(f => new BitMap(...f)))]. *)
Fixpoint build_fields (l : list (Value * Value * Value))
  : Result (list Value) :=
  match l with
  | [] => Ok []
  | (n, w, d) :: l' =>
      match BitMap_new n w d with
      | Throw e => Throw e
      | Ok b =>
          match build_fields l' with
          | Throw e => Throw e
          | Ok bs => Ok (VBitMap b :: bs)
          end
      end
  end.

Definition build (l : list (Value * Value * Value)) : Result ConfigBits :=
  match build_fields l with
  | Throw e => Throw e
  | Ok bs => ConfigBits_new bs
  end.

(** ** Layout *)

(** The sum of the widths of a list of fields: the offset of the field
    that follows them. *)
Definition total_bits (fields : list BitMap) : Z :=
  fold_right (fun b s => bits b + s) 0 fields.

(** The class invariant of [BitMap]: a Boolean field is one bit wide. *)
Definition BitMap_inv (b : BitMap) : Prop :=
  dataType b = CBoolean -> bits b = 1.

(** The offset of the field of index [i]: the widths before it, summed. *)
Definition offset (fields : list BitMap) (i : nat) : Z :=
  total_bits (firstn i fields).

(** [width] bits of [v] from bit [off] upward, on unbounded integers:
    [v] shifted right by [off] and masked with [2^width - 1]. *)
Definition extract (v off width : Z) : Z :=
  Z.land (Z.shiftr v off) (Z.ones width).

(** The value the specification gives a field: the extracted unsigned
    value, or, for a Boolean field, whether the extracted bit is 1. *)
Definition spec_value (v off : Z) (b : BitMap) : Prim :=
  match dataType b with
  | CBoolean => PBool (extract v off (bits b) =? 1)
  | _ => PNum (num_of_Z (extract v off (bits b)))
  end.

(** The same, except that a field of all 32 bits is read as a signed
    32-bit integer. *)
Definition decoded_value (v off : Z) (b : BitMap) : Prim :=
  match dataType b with
  | CBoolean => PBool (extract v off (bits b) =? 1)
  | _ => PNum (num_of_Z (if bits b =? 32 then wrap32 v
                         else extract v off (bits b)))
  end.

(** The assignments [result[name] = value] the decoding loop performs, in
    order. *)
Fixpoint field_entries (fields : list BitMap) (integer : Num) (position : Z)
  : list (string * Prim) :=
  match fields with
  | [] => []
  | b :: rest =>
      (name b, field_value integer position b)
      :: field_entries rest integer (position + bits b)
  end.

Definition obj_of_entries (entries : list (string * Prim)) : Obj :=
  fold_left (fun o e => obj_set o (fst e) (snd e)) entries [].

(** A field name that a plain object treats like any other key: neither
    an array index nor ["__proto__"]. *)
Definition ordinary_name (k : string) : Prop :=
  array_index k = None /\ k <> "__proto__".

(** Encoding that looks at present fields only: a field whose name is not
    an own property of the mapping is skipped. *)
Fixpoint encode_present (fields : list BitMap) (object : Obj) (off : Z) : Z :=
  match fields with
  | [] => 0
  | b :: rest =>
      Z.lor (match own object (name b) with
             | Some p => js_shl (ToNumber p) off
             | None => 0
             end)
            (encode_present rest object (off + bits b))
  end.

(** A mapping value that fits its field: a boolean, or an integer in
    [0, 2^width - 1]; an absent field fits. *)
Definition fits (object : Obj) (b : BitMap) : Prop :=
  match own object (name b) with
  | None => True
  | Some (PBool x) => x = true -> 1 <= bits b
  | Some (PNum n) => exists z, n = num_of_Z z /\ 0 <= z < 2 ^ bits b
  end.

(** The integer a mapping value stands for, and the bit pattern the
    specification composes from a mapping: each present value placed at
    its field's offset. *)
Definition int_value (x : Prim) : Z :=
  match x with
  | PBool true => 1
  | PBool false => 0
  | PNum (Fin q) => trunc q
  | PNum _ => 0
  end.

Fixpoint pattern (fields : list BitMap) (object : Obj) (off : Z) : Z :=
  match fields with
  | [] => 0
  | b :: rest =>
      match own object (name b) with
      | Some x => int_value x
      | None => 0
      end * 2 ^ off
      + pattern rest object (off + bits b)
  end.

(** ** [fromMap] *)

(** [m.get(k)]: the entry under [k], or [undefined]; a Map has no
    inherited entries. *)
Definition map_get (m : JsMap) (k : string) : Lookup :=
  match own m k with
  | Some p => LOwn p
  | None => LUndefined
  end.

Definition map_of (v : Value) : JsMap :=
  match v with VMap m => m | _ => [] end.

Fixpoint fromMap_loop (fields : list BitMap) (map : JsMap)
    (position : Z) (result : Z) : Z :=
  match fields with
  | [] => result
  | b :: rest =>
      let value := or_zero_ToNumber (map_get map (name b)) in
      fromMap_loop rest map (position + bits b)
        (js_or result (js_shl value position))
  end.

Definition fromMap (this : ConfigBits) (map : Value) : Result Z :=
  if negb (has_constructor map CMap) then Throw TypeError
  else Ok (fromMap_loop (bitMap this) (map_of map) 0 0).

(** A value of the kind and size of its field: a boolean for a Boolean
    field; for an Integer field a non-negative integer of at most [bits]
    bits that is also a signed 32-bit integer. *)
Definition typed_value (b : BitMap) (x : Prim) : Prop :=
  match dataType b with
  | CBoolean => exists t, x = PBool t
  | _ => exists z, x = PNum (num_of_Z z) /\ 0 <= z < 2 ^ bits b /\ z < 2 ^ 31
  end.

(** One entry per field, in schema order, each of its field's kind. *)
Definition typed_entries (fields : list BitMap) (m : JsMap) : Prop :=
  Forall2 (fun b e => fst e = name b /\ typed_value b (snd e)) fields m.

(** What decoding can produce for a field: a boolean for a Boolean field;
    for an Integer field a signed 32-bit integer, and below 32 bits of
    width an integer in [0, 2^bits - 1]. *)
Definition decoded_range (b : BitMap) (x : Prim) : Prop :=
  match dataType b with
  | CBoolean => exists t, x = PBool t
  | _ => exists z, x = PNum (num_of_Z z) /\ - 2 ^ 31 <= z < 2 ^ 31 /\
                   (bits b < 32 -> 0 <= z < 2 ^ bits b)
  end.

(** * Properties *)

(** ** Construction of a BitMap *)

Lemma num_gt_Fin_false (q : Q) (c : Z) :
  (q <= inject_Z c)%Q -> num_gt (Fin q) c = false.
Proof.
  intros H. unfold num_gt.
  destruct (Qcompare q (inject_Z c)) eqn:E; try reflexivity.
  apply Qle_alt in H. contradiction.
Qed.

Lemma num_gt_Fin_true (q : Q) (c : Z) :
  (inject_Z c < q)%Q -> num_gt (Fin q) c = true.
Proof.
  intros H. unfold num_gt.
  assert (E : Qcompare q (inject_Z c) = Gt) by (now apply Qgt_alt).
  now rewrite E.
Qed.

Lemma num_lt_Fin_false (q : Q) (c : Z) :
  (inject_Z c <= q)%Q -> num_lt (Fin q) c = false.
Proof.
  intros H. unfold num_lt.
  destruct (Qcompare q (inject_Z c)) eqn:E; try reflexivity.
  apply Qlt_alt in E. apply Qlt_not_le in E. contradiction.
Qed.

Lemma num_lt_Fin_true (q : Q) (c : Z) :
  (q < inject_Z c)%Q -> num_lt (Fin q) c = true.
Proof.
  intros H. unfold num_lt.
  assert (E : Qcompare q (inject_Z c) = Lt) by (now apply Qlt_alt).
  now rewrite E.
Qed.

(** The [constructor] tests succeed on a string and on a number. *)
Ltac pass_constructor_tests :=
  repeat match goal with
         | |- context [has_constructor (VStr ?s) CString] =>
             change (has_constructor (VStr s) CString) with true
         | |- context [has_constructor (VNum ?n) CNumber] =>
             change (has_constructor (VNum n) CNumber) with true
         end;
  cbn [negb number_of string_of].

(** C2, as the code has it.  A name whose [constructor] is not [String]
    (so [undefined], [null], a number, a boolean) is refused with
    [TypeError]; after a name that passed, a width whose [constructor] is
    not [Number] is refused with [TypeError]; [ArgumentError] is never
    thrown.  No check looks at the content of the name: every string,
    the empty one included, is accepted with an integral width from 1 to
    32 of the Integer kind. *)
Theorem BitMap_new_name_width_checks :
  (forall nm w dt, has_constructor nm CString = false ->
     BitMap_new nm w dt = Throw TypeError) /\
  (forall nm w dt, has_constructor nm CString = true ->
     has_constructor w CNumber = false ->
     BitMap_new nm w dt = Throw TypeError) /\
  (forall nm w dt, BitMap_new nm w dt <> Throw ArgumentError) /\
  (forall s w dt, 1 <= w <= 32 ->
     dt = VUndefined \/ dt = VCtor CNumber ->
     exists b, BitMap_new (VStr s) (VNum (num_of_Z w)) dt = Ok b /\
               name b = s).
Proof.
  split; [| split; [| split]].
  - intros nm w dt H. unfold BitMap_new. now rewrite H.
  - intros nm w dt Hn Hw. unfold BitMap_new. now rewrite Hn, Hw.
  - intros nm w dt. unfold BitMap_new.
    destruct (negb (has_constructor nm CString)); [discriminate |].
    destruct (negb (has_constructor w CNumber)); [discriminate |].
    destruct (num_gt (number_of w) 32); [discriminate |].
    destruct (negb (is_ctor _ CNumber) && negb (is_ctor _ CBoolean));
      [discriminate |].
    destruct (is_ctor _ CBoolean && num_neq (number_of w) 1); discriminate.
  - intros s w dt Hw Hdt.
    exists (mkBitMap s (Z.to_N (ToUint16 (num_of_Z w))) CNumber).
    split; [| reflexivity].
    assert (E : num_gt (num_of_Z w) 32 = false)
      by (apply num_gt_Fin_false; rewrite <- Zle_Qle; lia).
    unfold BitMap_new. pass_constructor_tests. rewrite E.
    destruct Hdt as [-> | ->]; reflexivity.
Qed.

Lemma BitMap_new_name_width_checks_witness :
  BitMap_new VNull (VNum (num_of_Z 1)) VUndefined = Throw TypeError /\
  BitMap_new (VStr "a") (VStr "1") VUndefined = Throw TypeError /\
  exists b, BitMap_new (VStr "") (VNum (num_of_Z 4)) VUndefined = Ok b /\
            name b = "".
Proof.
  destruct BitMap_new_name_width_checks as (H1 & H2 & _ & H4).
  split; [| split].
  - apply H1. reflexivity.
  - apply H2; reflexivity.
  - apply (H4 "" 4); [lia | now left].
Defined.

(** C2 refuted as stated: an empty name and the widths 0, -1 and 1.5 all
    yield a BitMap, and a name that is not a string raises [TypeError],
    not [ArgumentError]. *)
Lemma BitMap_new_accepts_empty_name_and_nonpositive_width :
  BitMap_new (VStr "") (VNum (num_of_Z 1)) VUndefined
    = Ok (mkBitMap "" 1%N CNumber) /\
  BitMap_new (VStr "a") (VNum (num_of_Z 0)) VUndefined
    = Ok (mkBitMap "a" 0%N CNumber) /\
  BitMap_new (VStr "a") (VNum (num_of_Z (-1))) VUndefined
    = Ok (mkBitMap "a" 65535%N CNumber) /\
  BitMap_new (VStr "a") (VNum (Fin (3 # 2))) VUndefined
    = Ok (mkBitMap "a" 1%N CNumber) /\
  BitMap_new (VNum (num_of_Z 7)) (VNum (num_of_Z 1)) VUndefined
    = Throw TypeError.
Proof. repeat split. Qed.

(** C9, as the code has it.  With a string name and the Boolean kind, a
    numeric width other than 1 that does not exceed 32 is refused with
    [TypeMismatchError]; a width above 32 has already been refused with
    [RangeError] by the earlier check. *)
Theorem BitMap_new_Boolean_width :
  (forall s q, (q <= inject_Z 32)%Q -> ~ (q == inject_Z 1)%Q ->
     BitMap_new (VStr s) (VNum (Fin q)) (VCtor CBoolean)
     = Throw TypeMismatchError) /\
  (forall s q, (inject_Z 32 < q)%Q ->
     BitMap_new (VStr s) (VNum (Fin q)) (VCtor CBoolean) = Throw RangeError).
Proof.
  split.
  - intros s q Hle Hne. unfold BitMap_new.
    pass_constructor_tests. rewrite (num_gt_Fin_false q 32 Hle).
    cbn [is_ctor Ctor_eqb negb andb num_neq].
    destruct (Qeq_bool q (inject_Z 1)) eqn:E; [| reflexivity].
    apply Qeq_bool_iff in E. contradiction.
  - intros s q Hgt. unfold BitMap_new.
    pass_constructor_tests. now rewrite (num_gt_Fin_true q 32 Hgt).
Qed.

Lemma BitMap_new_Boolean_width_witness :
  BitMap_new (VStr "flag") (VNum (num_of_Z 2)) (VCtor CBoolean)
    = Throw TypeMismatchError /\
  BitMap_new (VStr "flag") (VNum (num_of_Z 40)) (VCtor CBoolean)
    = Throw RangeError.
Proof.
  destruct BitMap_new_Boolean_width as [H1 H2]. split.
  - apply (H1 "flag" (inject_Z 2)); discriminate.
  - apply (H2 "flag" (inject_Z 40)). reflexivity.
Defined.

(** C9 refuted as stated: kind Boolean with width 33, which differs from
    1, fails with [RangeError] and not with [TypeMismatchError]. *)
Lemma BitMap_new_Boolean_33_RangeError :
  BitMap_new (VStr "flag") (VNum (num_of_Z 33)) (VCtor CBoolean)
    = Throw RangeError /\
  BitMap_new (VStr "flag") (VNum (num_of_Z 33)) (VCtor CBoolean)
    <> Throw TypeMismatchError.
Proof. split; [reflexivity | discriminate]. Qed.

(** ** Construction of a ConfigBits *)

Lemma bits_nonneg (b : BitMap) : 0 <= bits b.
Proof. unfold bits. lia. Qed.

Lemma total_bits_nonneg (l : list BitMap) : 0 <= total_bits l.
Proof.
  induction l as [| b l IH]; simpl; [lia |]. pose proof (bits_nonneg b). lia.
Qed.

Lemma ConfigBits_loop_prefix (pre : list BitMap) :
  forall (rest : list Value) (t : Z) (acc : list BitMap),
    t + total_bits pre <= 32 ->
    ConfigBits_loop (map VBitMap pre ++ rest) t acc
    = ConfigBits_loop rest (t + total_bits pre) (acc ++ pre).
Proof.
  induction pre as [| b pre IH]; intros rest t acc H; simpl in *.
  - now rewrite Z.add_0_r, app_nil_r.
  - pose proof (total_bits_nonneg pre).
    destruct (Z.ltb_spec 32 (t + bits b)); [lia |].
    rewrite IH by lia. rewrite <- app_assoc. simpl. f_equal. lia.
Qed.

Lemma ConfigBits_new_fields (fields : list BitMap) :
  fields <> [] -> total_bits fields <= 32 ->
  ConfigBits_new (map VBitMap fields) = Ok (mkConfigBits fields).
Proof.
  intros Hne H. unfold ConfigBits_new.
  destruct fields as [| b l]; [congruence |].
  change (map VBitMap (b :: l)) with (VBitMap b :: map VBitMap l).
  cbv iota. rewrite <- (app_nil_r (VBitMap b :: map VBitMap l)).
  change (VBitMap b :: map VBitMap l) with (map VBitMap (b :: l)).
  rewrite ConfigBits_loop_prefix by (simpl in *; lia). reflexivity.
Qed.

(** Every schema that was constructed holds the fields it was given, and
    their widths sum to at most 32. *)
Lemma ConfigBits_loop_inv (args : list Value) :
  forall t acc S,
    t <= 32 ->
    ConfigBits_loop args t acc = Ok S ->
    exists fields, args = map VBitMap fields /\ bitMap S = acc ++ fields /\
                   t + total_bits fields <= 32.
Proof.
  induction args as [| v args IH]; intros t acc S Ht H; simpl in H.
  - injection H as <-. exists []. simpl. rewrite app_nil_r.
    repeat split; lia.
  - destruct v; try discriminate.
    destruct (Z.ltb_spec 32 (t + bits b)); [discriminate |].
    apply IH in H as (fields & -> & HS & Hsum); [| assumption].
    exists (b :: fields). rewrite HS, <- app_assoc. simpl.
    repeat split; lia.
Qed.

Lemma ConfigBits_new_inv (args : list Value) (S : ConfigBits) :
  ConfigBits_new args = Ok S ->
  args = map VBitMap (bitMap S) /\ total_bits (bitMap S) <= 32.
Proof.
  unfold ConfigBits_new. destruct args as [| v args]; [discriminate |].
  intros H. apply ConfigBits_loop_inv in H as (fields & E & HS & Hsum); [| lia].
  simpl in HS. subst fields. split; [assumption | lia].
Qed.

(** C5.  When the fields up to index [k] are BitMaps and the running total
    first exceeds 32 at the field of index [k], construction fails with
    [RangeError] whatever follows that field, BitMap or not; and the
    fields before it, taken alone, are accepted. *)
Theorem ConfigBits_new_overflow_at_first_offender
    (pre : list BitMap) (b : BitMap) (suffix : list Value) :
  total_bits pre <= 32 ->
  32 < total_bits pre + bits b ->
  ConfigBits_new (map VBitMap pre ++ VBitMap b :: suffix) = Throw RangeError /\
  (pre <> [] -> ConfigBits_new (map VBitMap pre) = Ok (mkConfigBits pre)).
Proof.
  intros Hpre Hb. split.
  - assert (E : ConfigBits_loop (map VBitMap pre ++ VBitMap b :: suffix) 0 []
                = Throw RangeError).
    { rewrite ConfigBits_loop_prefix by lia. simpl.
      destruct (Z.ltb_spec 32 (total_bits pre + bits b)); [reflexivity | lia]. }
    unfold ConfigBits_new.
    destruct (map VBitMap pre ++ VBitMap b :: suffix) eqn:El; [| exact E].
    destruct pre; discriminate.
  - intros Hne. now apply ConfigBits_new_fields.
Qed.

Lemma ConfigBits_new_overflow_at_first_offender_witness :
  ConfigBits_new
    (map VBitMap [mkBitMap "a" 20%N CNumber; mkBitMap "b" 12%N CNumber]
     ++ VBitMap (mkBitMap "c" 1%N CBoolean) :: [VStr "not a BitMap"; VNull])
  = Throw RangeError /\
  ([mkBitMap "a" 20%N CNumber; mkBitMap "b" 12%N CNumber] <> [] ->
   ConfigBits_new
     (map VBitMap [mkBitMap "a" 20%N CNumber; mkBitMap "b" 12%N CNumber])
   = Ok (mkConfigBits [mkBitMap "a" 20%N CNumber; mkBitMap "b" 12%N CNumber])).
Proof.
  apply (ConfigBits_new_overflow_at_first_offender
           [mkBitMap "a" 20%N CNumber; mkBitMap "b" 12%N CNumber]
           (mkBitMap "c" 1%N CBoolean) [VStr "not a BitMap"; VNull]).
  - vm_compute. discriminate.
  - vm_compute. reflexivity.
Defined.

(** ** 32-bit arithmetic *)

Lemma wrap32_range (z : Z) : - 2 ^ 31 <= wrap32 z < 2 ^ 31.
Proof.
  unfold wrap32. pose proof (Z.mod_pos_bound z (2 ^ 32) eq_refl).
  destruct (Z.leb_spec (2 ^ 31) (z mod 2 ^ 32)); lia.
Qed.

Lemma wrap32_id (z : Z) : - 2 ^ 31 <= z < 2 ^ 31 -> wrap32 z = z.
Proof.
  intros H. unfold wrap32.
  destruct (Z_lt_le_dec z 0) as [Hn | Hp].
  - replace (z mod 2 ^ 32) with (z + 2 ^ 32).
    + destruct (Z.leb_spec (2 ^ 31) (z + 2 ^ 32)); lia.
    + apply (Z.mod_unique _ _ (-1)); lia.
  - rewrite Z.mod_small by lia.
    destruct (Z.leb_spec (2 ^ 31) z); lia.
Qed.

Lemma wrap32_mod (z : Z) : wrap32 z mod 2 ^ 32 = z mod 2 ^ 32.
Proof.
  unfold wrap32. destruct (Z.leb_spec (2 ^ 31) (z mod 2 ^ 32)).
  - replace (z mod 2 ^ 32 - 2 ^ 32) with (z mod 2 ^ 32 + (-1) * 2 ^ 32) by lia.
    rewrite Z.mod_add by lia. apply Z.mod_mod. lia.
  - apply Z.mod_mod. lia.
Qed.

Lemma testbit_small (a k : Z) : 0 <= a < 2 ^ k -> 0 <= k -> Z.testbit a k = false.
Proof.
  intros Ha Hk. apply Z.testbit_false; [assumption |].
  now rewrite Z.div_small.
Qed.

Lemma testbit_small_neg (a k : Z) :
  - 2 ^ k <= a < 0 -> 0 <= k -> Z.testbit a k = true.
Proof.
  intros Ha Hk. apply Z.testbit_true; [assumption |].
  assert (0 < 2 ^ k) by (apply Z.pow_pos_nonneg; lia).
  replace (a / 2 ^ k) with (-1); [reflexivity |].
  apply (Z.div_unique _ _ _ (a + 2 ^ k)); lia.
Qed.

(** The bits of a wrapped integer: the low 32 bits are kept and bit 31 is
    copied upward. *)
Lemma wrap32_testbit (z k : Z) :
  0 <= k -> Z.testbit (wrap32 z) k = Z.testbit z (Z.min k 31).
Proof.
  intros Hk. destruct (Z_lt_le_dec k 32) as [Hlo | Hhi].
  - replace (Z.min k 31) with k by lia.
    rewrite <- (Z.mod_pow2_bits_low (wrap32 z) 32 k) by lia.
    rewrite wrap32_mod. apply Z.mod_pow2_bits_low. lia.
  - replace (Z.min k 31) with 31 by lia.
    rewrite <- (Z.mod_pow2_bits_low z 32 31) by lia.
    unfold wrap32. pose proof (Z.mod_pos_bound z (2 ^ 32) eq_refl) as Hm.
    set (m := z mod 2 ^ 32) in *.
    assert (2 ^ 32 <= 2 ^ k) by (apply Z.pow_le_mono_r; lia).
    destruct (Z.leb_spec (2 ^ 31) m).
    + rewrite testbit_small_neg by lia.
      symmetry. apply Z.testbit_true; [lia |].
      replace (m / 2 ^ 31) with 1; [reflexivity |].
      apply (Z.div_unique _ _ _ (m - 2 ^ 31)); lia.
    + rewrite testbit_small by lia. symmetry. apply testbit_small; lia.
Qed.

Lemma wrap32_idem (z : Z) : wrap32 (wrap32 z) = wrap32 z.
Proof. apply wrap32_id, wrap32_range. Qed.

Lemma wrap32_lor (a b : Z) :
  Z.lor (wrap32 a) (wrap32 b) = wrap32 (Z.lor a b).
Proof.
  apply Z.bits_inj'. intros k Hk.
  now rewrite Z.lor_spec, !wrap32_testbit, Z.lor_spec.
Qed.

Lemma wrap32_mod_eq (a b : Z) :
  a mod 2 ^ 32 = b mod 2 ^ 32 -> wrap32 a = wrap32 b.
Proof. unfold wrap32. now intros ->. Qed.

Lemma trunc_inject_Z (z : Z) : trunc (inject_Z z) = z.
Proof. unfold trunc. simpl. apply Z.quot_1_r. Qed.

Lemma ToInt32_num_of_Z (z : Z) : ToInt32 (num_of_Z z) = wrap32 z.
Proof. unfold ToInt32, num_of_Z. now rewrite trunc_inject_Z. Qed.

(** ** What a constructed schema satisfies *)

Lemma trunc_Qeq_1 (q : Q) : (q == inject_Z 1)%Q -> trunc q = 1.
Proof.
  unfold Qeq, trunc. simpl. intros H.
  replace (Qnum q) with (Z.pos (Qden q)) by lia.
  apply Z.quot_same. discriminate.
Qed.

Lemma BitMap_new_inv (nm w dt : Value) (b : BitMap) :
  BitMap_new nm w dt = Ok b -> BitMap_inv b.
Proof.
  unfold BitMap_new, BitMap_inv.
  destruct (has_constructor nm CString); [| discriminate].
  destruct (has_constructor w CNumber); [| discriminate].
  cbn [negb]. destruct (num_gt (number_of w) 32); [discriminate |].
  set (d := match dt with VUndefined => VCtor CNumber | _ => dt end).
  destruct (negb (is_ctor d CNumber) && negb (is_ctor d CBoolean));
    [discriminate |].
  destruct (is_ctor d CBoolean && num_neq (number_of w) 1) eqn:E;
    [discriminate |].
  intros H; injection H as <-. cbn [dataType bits bits_char]. intros Hd.
  assert (Hb : is_ctor d CBoolean = true).
  { destruct d; try discriminate. cbn in Hd. now subst c. }
  rewrite Hb in E. cbn [andb] in E.
  destruct (number_of w) as [| | | q]; try discriminate.
  cbn [num_neq] in E. apply negb_false_iff, Qeq_bool_iff in E.
  cbn [ToUint16]. now rewrite (trunc_Qeq_1 q E).
Qed.

Lemma build_fields_inv (l : list (Value * Value * Value)) :
  forall vs, build_fields l = Ok vs ->
             Forall (fun v => exists b, v = VBitMap b /\ BitMap_inv b) vs.
Proof.
  induction l as [| [[n w] d] l IH]; intros vs H; simpl in H.
  - injection H as <-. constructor.
  - destruct (BitMap_new n w d) as [b |] eqn:Eb; [| discriminate].
    destruct (build_fields l) as [bs |]; [| discriminate].
    injection H as <-. constructor.
    + exists b. split; [reflexivity |]. eapply BitMap_new_inv, Eb.
    + now apply IH.
Qed.

Lemma build_inv (l : list (Value * Value * Value)) (S : ConfigBits) :
  build l = Ok S ->
  total_bits (bitMap S) <= 32 /\ Forall BitMap_inv (bitMap S).
Proof.
  unfold build. destruct (build_fields l) as [vs |] eqn:E; [| discriminate].
  intros H. apply ConfigBits_new_inv in H as [Hvs Hsum].
  split; [assumption |].
  apply build_fields_inv in E. rewrite Hvs in E.
  rewrite Forall_forall in E. apply Forall_forall. intros b Hb.
  destruct (E (VBitMap b)) as (b' & Hb' & Hinv); [now apply in_map |].
  now injection Hb' as ->.
Qed.

(** ** Extraction of one field *)

Lemma mask_small (w : Z) : 0 <= w <= 31 -> ToInt32 (pow2_minus_1 w) = Z.ones w.
Proof.
  intros H. unfold pow2_minus_1.
  destruct (Z.leb_spec w 53); [| lia].
  rewrite ToInt32_num_of_Z, Z.ones_equiv.
  assert (0 < 2 ^ w) by (apply Z.pow_pos_nonneg; lia).
  assert (2 ^ w <= 2 ^ 31) by (apply Z.pow_le_mono_r; lia).
  apply wrap32_id. lia.
Qed.

Lemma js_shr_num_of_Z (v p : Z) :
  js_shr (num_of_Z v) p = Z.shiftr (wrap32 v) (p mod 32).
Proof. unfold js_shr. now rewrite ToInt32_num_of_Z. Qed.

(** The masked shift of the code against the extraction on unbounded
    integers: they agree for every width below 32, and a field of 32 bits
    is the whole input read as a signed integer. *)
Lemma field_raw (v p w : Z) :
  0 <= p -> 0 <= w -> p + w <= 32 ->
  js_and (js_shr (num_of_Z v) p) (ToInt32 (pow2_minus_1 w))
  = if w =? 32 then wrap32 v else extract v p w.
Proof.
  intros Hp Hw Hpw. rewrite js_shr_num_of_Z. unfold js_and.
  destruct (Z.eqb_spec w 32) as [-> | Hne].
  - replace p with 0 by lia.
    change (ToInt32 (pow2_minus_1 32)) with (-1).
    now rewrite Z.land_m1_r, Z.shiftr_0_r.
  - rewrite mask_small by lia. unfold extract.
    apply Z.bits_inj'. intros k Hk.
    rewrite !Z.land_spec, !Z.shiftr_spec, Z.testbit_ones_nonneg by lia.
    destruct (Z.ltb_spec k w); [| now rewrite !andb_false_r].
    rewrite Z.mod_small by lia. rewrite wrap32_testbit by lia.
    now replace (Z.min (k + p) 31) with (k + p) by lia.
Qed.

Lemma extract_range (v p w : Z) : 0 <= w -> 0 <= extract v p w < 2 ^ w.
Proof.
  intros Hw. unfold extract. rewrite Z.land_ones by assumption.
  apply Z.mod_pos_bound. apply Z.pow_pos_nonneg; lia.
Qed.

Lemma field_value_decoded (v p : Z) (b : BitMap) :
  BitMap_inv b -> 0 <= p -> p + bits b <= 32 ->
  field_value (num_of_Z v) p b = decoded_value v p b.
Proof.
  intros Hinv Hp Hpw. pose proof (bits_nonneg b) as Hw.
  unfold field_value, decoded_value. rewrite field_raw by assumption.
  destruct (dataType b) eqn:Ed; try reflexivity.
  rewrite (Hinv Ed). change (1 =? 32) with false. cbv iota.
  pose proof (extract_range v p 1 ltac:(lia)) as Hr.
  change (2 ^ 1) with 2 in Hr. f_equal.
  destruct (Z.eqb_spec (extract v p 1) 0), (Z.eqb_spec (extract v p 1) 1);
    simpl; try reflexivity; lia.
Qed.

Lemma toObject_loop_entries (fields : list BitMap) (n : Num) :
  forall p o,
    toObject_loop fields n p o
    = fold_left (fun o e => obj_set o (fst e) (snd e)) (field_entries fields n p) o.
Proof.
  induction fields as [| b fields IH]; intros p o; simpl; [reflexivity |].
  apply IH.
Qed.

Lemma field_entries_length (fields : list BitMap) (n : Num) :
  forall p, List.length (field_entries fields n p) = List.length fields.
Proof.
  induction fields as [| b fields IH]; intros p; simpl; [reflexivity |].
  now rewrite IH.
Qed.

Lemma field_entries_nth (fields : list BitMap) (v : Z) :
  forall p i b,
    Forall BitMap_inv fields -> 0 <= p -> p + total_bits fields <= 32 ->
    nth_error fields i = Some b ->
    nth_error (field_entries fields (num_of_Z v) p) i
    = Some (name b, decoded_value v (p + offset fields i) b).
Proof.
  induction fields as [| a fields IH]; intros p i b Hinv Hp Hsum Hi.
  - destruct i; discriminate.
  - inversion Hinv as [| ? ? Ha Hrest]; subst. simpl in Hsum.
    pose proof (bits_nonneg a). pose proof (total_bits_nonneg fields).
    destruct i as [| i]; simpl in *.
    + injection Hi as ->. unfold offset. simpl. rewrite Z.add_0_r.
      now rewrite field_value_decoded by (assumption || lia).
    + rewrite (IH (p + bits a) i b) by (assumption || lia).
      unfold offset. simpl. do 3 f_equal. lia.
Qed.

Lemma in_range_accepted (v : Z) :
  - 2 ^ 31 <= v <= 2 ^ 32 - 1 ->
  num_gt (num_of_Z v) 4294967295 || num_lt (num_of_Z v) (-2147483648) = false.
Proof.
  intros H. unfold num_of_Z.
  rewrite num_gt_Fin_false, num_lt_Fin_false; [reflexivity | |];
    rewrite <- Zle_Qle; lia.
Qed.

(** ** Decoding *)

(** C7, as the code has it.  Decoding a constructed schema assigns, field
    by field in schema order, [result[name] = value], where the value of
    the field of index [i] is taken at the offset that is the sum of the
    widths before it (so the first field sits at bit 0): for a Boolean
    field, whether the extracted bit is 1; for an Integer field narrower
    than 32 bits, the extracted unsigned value; for an Integer field of
    all 32 bits, the input read as a signed 32-bit integer. *)
Theorem toObject_field_values
    (l : list (Value * Value * Value)) (S : ConfigBits) (v : Z) :
  build l = Ok S ->
  - 2 ^ 31 <= v <= 2 ^ 32 - 1 ->
  exists entries,
    toObject S (VNum (num_of_Z v)) = Ok (obj_of_entries entries) /\
    List.length entries = List.length (bitMap S) /\
    forall i b,
      nth_error (bitMap S) i = Some b ->
      nth_error entries i
      = Some (name b, decoded_value v (offset (bitMap S) i) b).
Proof.
  intros HS Hv. apply build_inv in HS as [Hsum Hinv].
  exists (field_entries (bitMap S) (num_of_Z v) 0). split; [| split].
  - unfold toObject.
    pass_constructor_tests. rewrite in_range_accepted by assumption.
    now rewrite toObject_loop_entries.
  - apply field_entries_length.
  - intros i b Hi.
    rewrite (field_entries_nth (bitMap S) v 0 i b) by (assumption || lia).
    reflexivity.
Qed.

Lemma toObject_field_values_witness :
  exists entries,
    toObject (mkConfigBits [mkBitMap "auto_save" 1%N CBoolean;
                            mkBitMap "indent_type" 1%N CNumber;
                            mkBitMap "indent_size" 2%N CNumber])
             (VNum (num_of_Z 13))
    = Ok (obj_of_entries entries) /\
    List.length entries = 3%nat /\
    forall i b,
      nth_error [mkBitMap "auto_save" 1%N CBoolean;
                 mkBitMap "indent_type" 1%N CNumber;
                 mkBitMap "indent_size" 2%N CNumber] i = Some b ->
      nth_error entries i
      = Some (name b,
              decoded_value 13
                (offset [mkBitMap "auto_save" 1%N CBoolean;
                         mkBitMap "indent_type" 1%N CNumber;
                         mkBitMap "indent_size" 2%N CNumber] i) b).
Proof.
  apply (toObject_field_values scenario_fields
           (mkConfigBits [mkBitMap "auto_save" 1%N CBoolean;
                          mkBitMap "indent_type" 1%N CNumber;
                          mkBitMap "indent_size" 2%N CNumber]) 13).
  - reflexivity.
  - vm_compute. split; discriminate.
Defined.

(** C7 refuted as stated: a schema of one Integer field of 32 bits decodes
    4294967295 to -1, where the extracted unsigned value is 4294967295. *)
Lemma toObject_32_bit_field_is_signed :
  build [(VStr "x", VNum (num_of_Z 32), VUndefined)]
    = Ok (mkConfigBits [mkBitMap "x" 32%N CNumber]) /\
  toObject (mkConfigBits [mkBitMap "x" 32%N CNumber])
           (VNum (num_of_Z 4294967295))
    = Ok [("x", PNum (num_of_Z (-1)))] /\
  spec_value 4294967295 0 (mkBitMap "x" 32%N CNumber)
    = PNum (num_of_Z 4294967295) /\
  toObject (mkConfigBits [mkBitMap "x" 32%N CNumber])
           (VNum (num_of_Z 4294967295))
    <> Ok [("x", spec_value 4294967295 0 (mkBitMap "x" 32%N CNumber))].
Proof. repeat split. vm_compute. discriminate. Qed.

(** C3, at the inputs where the code departs from it: the non-integral
    number 1.5 and NaN pass both tests of [toObject] and are decoded, as
    1 and as 0, where the documentation of [toObject] promises an error
    for an input that is not a valid 32-bit integer. *)
Lemma toObject_accepts_fraction_and_NaN :
  toObject (mkConfigBits [mkBitMap "a" 4%N CNumber]) (VNum (Fin (3 # 2)))
    = Ok [("a", PNum (num_of_Z 1))] /\
  toObject (mkConfigBits [mkBitMap "a" 4%N CNumber]) (VNum NaN)
    = Ok [("a", PNum (num_of_Z 0))].
Proof. split; reflexivity. Qed.

(** C6.  The three-field scenario: the schema is constructed, encoding the
    mapping yields 13, and decoding 13 yields the mapping. *)
Theorem scenario_encode_decode :
  exists S,
    build scenario_fields = Ok S /\
    fromObject S (VObject scenario_object) = Ok 13 /\
    toObject S (VNum (num_of_Z 13)) = Ok scenario_object.
Proof. eexists. repeat split. Qed.

(** ** The two decoders *)

Lemma obj_set_ordinary (o : Obj) (k : string) (x : Prim) :
  ordinary_name k -> obj_set o k x = map_set o k x.
Proof.
  intros [Hidx Hproto]. unfold obj_set, map_set.
  destruct (own o k); [reflexivity |].
  destruct (String.eqb_spec k "__proto__"); [contradiction |].
  now rewrite Hidx.
Qed.

Lemma toObject_loop_toMap_loop (fields : list BitMap) (n : Num) :
  Forall (fun b => ordinary_name (name b)) fields ->
  forall p o, toObject_loop fields n p o = toMap_loop fields n p o.
Proof.
  induction 1 as [| b fields Hb _ IH]; intros p o; simpl; [reflexivity |].
  now rewrite obj_set_ordinary, IH.
Qed.

(** C8, as the code has it.  [toMap] and [toObject] fail on the same
    inputs with the same error; and when no field name is an array index
    or ["__proto__"], a successful call of either yields the same
    (name, value) pairs in the same order. *)
Theorem toMap_toObject_agree (S : ConfigBits) (v : Value) :
  (forall e, toObject S v = Throw e <-> toMap S v = Throw e) /\
  (Forall (fun b => ordinary_name (name b)) (bitMap S) ->
   toObject S v = toMap S v).
Proof.
  unfold toObject, toMap.
  destruct (negb (has_constructor v CNumber)); [split; tauto |].
  destruct (num_gt (number_of v) 4294967295
            || num_lt (number_of v) (-2147483648)); [split; tauto |].
  split.
  - intros e. split; discriminate.
  - intros H. now rewrite toObject_loop_toMap_loop.
Qed.

Lemma toMap_toObject_agree_witness :
  (forall e,
     toObject (mkConfigBits [mkBitMap "a" 1%N CBoolean; mkBitMap "b" 3%N CNumber])
              (VNum (num_of_Z 5)) = Throw e <->
     toMap (mkConfigBits [mkBitMap "a" 1%N CBoolean; mkBitMap "b" 3%N CNumber])
           (VNum (num_of_Z 5)) = Throw e) /\
  toObject (mkConfigBits [mkBitMap "a" 1%N CBoolean; mkBitMap "b" 3%N CNumber])
           (VNum (num_of_Z 5))
  = toMap (mkConfigBits [mkBitMap "a" 1%N CBoolean; mkBitMap "b" 3%N CNumber])
          (VNum (num_of_Z 5)).
Proof.
  destruct (toMap_toObject_agree
              (mkConfigBits [mkBitMap "a" 1%N CBoolean; mkBitMap "b" 3%N CNumber])
              (VNum (num_of_Z 5))) as [H1 H2].
  split; [exact H1 |]. apply H2.
  repeat constructor; discriminate.
Defined.

(** C8 refuted as stated: with the fields named "1" and "0" the object
    lists "0" first and the Map lists "1" first; and a field named
    ["__proto__"] is an entry of the Map but not a property of the
    object. *)
Lemma toMap_toObject_differ :
  build [(VStr "1", VNum (num_of_Z 1), VUndefined);
         (VStr "0", VNum (num_of_Z 1), VUndefined)]
    = Ok (mkConfigBits [mkBitMap "1" 1%N CNumber; mkBitMap "0" 1%N CNumber]) /\
  toObject (mkConfigBits [mkBitMap "1" 1%N CNumber; mkBitMap "0" 1%N CNumber])
           (VNum (num_of_Z 1))
    = Ok [("0", PNum (num_of_Z 0)); ("1", PNum (num_of_Z 1))] /\
  toMap (mkConfigBits [mkBitMap "1" 1%N CNumber; mkBitMap "0" 1%N CNumber])
        (VNum (num_of_Z 1))
    = Ok [("1", PNum (num_of_Z 1)); ("0", PNum (num_of_Z 0))] /\
  toObject (mkConfigBits [mkBitMap "__proto__" 1%N CNumber]) (VNum (num_of_Z 1))
    = Ok [] /\
  toMap (mkConfigBits [mkBitMap "__proto__" 1%N CNumber]) (VNum (num_of_Z 1))
    = Ok [("__proto__", PNum (num_of_Z 1))].
Proof. repeat split. Qed.

(** ** Encoding *)

Lemma js_shl_zero (n : Num) (p : Z) : ToInt32 n = 0 -> js_shl n p = 0.
Proof. intros H. unfold js_shl. now rewrite H, Z.shiftl_0_l. Qed.

Lemma falsy_ToInt32 (x : Prim) : truthy x = false -> ToInt32 (ToNumber x) = 0.
Proof.
  destruct x as [[| | | q] | []]; simpl; try discriminate; try reflexivity.
  intros H. apply negb_false_iff, Qeq_bool_iff in H.
  unfold Qeq in H. simpl in H. unfold trunc.
  replace (Qnum q) with 0 by lia. reflexivity.
Qed.

(** What one field adds to the result. *)
Lemma contribution (o : Obj) (k : string) (p : Z) :
  js_shl (or_zero_ToNumber (obj_get o k)) p
  = match own o k with
    | Some x => js_shl (ToNumber x) p
    | None => 0
    end.
Proof.
  unfold obj_get. destruct (own o k) as [x |].
  - simpl. destruct (truthy x) eqn:E; [reflexivity |].
    rewrite (js_shl_zero (ToNumber x)) by now apply falsy_ToInt32.
    now apply js_shl_zero.
  - destruct (inherited k); now apply js_shl_zero.
Qed.

Lemma fromObject_loop_present (fields : list BitMap) (o : Obj) :
  forall p r,
    fromObject_loop fields o p r = Z.lor r (encode_present fields o p).
Proof.
  induction fields as [| b fields IH]; intros p r; simpl.
  - now rewrite Z.lor_0_r.
  - rewrite IH. unfold js_or. rewrite contribution. now rewrite Z.lor_assoc.
Qed.

Lemma has_constructor_Object (o : Obj) :
  own o "constructor" = None -> has_constructor (VObject o) CObject = true.
Proof. intros H. unfold has_constructor. simpl. now rewrite H. Qed.

Lemma fromObject_present (S : ConfigBits) (o : Obj) :
  own o "constructor" = None ->
  fromObject S (VObject o) = Ok (encode_present (bitMap S) o 0).
Proof.
  intros H. unfold fromObject. rewrite has_constructor_Object by assumption.
  cbn [negb object_of]. now rewrite fromObject_loop_present.
Qed.

(** C10.  Encoding the empty mapping yields 0 on every schema.  For every
    mapping the loop leaves the result unchanged at a field whose name is
    not a property of the mapping, and the result is the one obtained
    from the present fields alone. *)
Theorem fromObject_absent_fields (S : ConfigBits) :
  fromObject S (VObject []) = Ok 0 /\
  (forall b rest o p r,
     own o (name b) = None ->
     fromObject_loop (b :: rest) o p r
     = fromObject_loop rest o (p + bits b) r) /\
  (forall o,
     own o "constructor" = None ->
     fromObject S (VObject o) = Ok (encode_present (bitMap S) o 0)).
Proof.
  split; [| split].
  - rewrite fromObject_present by reflexivity. f_equal.
    generalize 0 at 1. induction (bitMap S) as [| b l IH]; intros p; simpl.
    + reflexivity.
    + now rewrite IH.
  - intros b rest o p r H. simpl. rewrite contribution, H.
    unfold js_or. now rewrite Z.lor_0_r.
  - intros o. apply fromObject_present.
Qed.

Lemma fromObject_absent_fields_witness :
  fromObject (mkConfigBits [mkBitMap "a" 2%N CNumber; mkBitMap "toString" 2%N CNumber])
             (VObject []) = Ok 0 /\
  fromObject_loop [mkBitMap "toString" 2%N CNumber; mkBitMap "b" 3%N CNumber]
                  [("b", PNum (num_of_Z 5))] 2 1
  = fromObject_loop [mkBitMap "b" 3%N CNumber] [("b", PNum (num_of_Z 5))]
                    (2 + bits (mkBitMap "toString" 2%N CNumber)) 1 /\
  fromObject (mkConfigBits [mkBitMap "a" 2%N CNumber; mkBitMap "toString" 2%N CNumber])
             (VObject [("a", PNum (num_of_Z 3))])
  = Ok (encode_present [mkBitMap "a" 2%N CNumber; mkBitMap "toString" 2%N CNumber]
                       [("a", PNum (num_of_Z 3))] 0).
Proof.
  destruct (fromObject_absent_fields
              (mkConfigBits [mkBitMap "a" 2%N CNumber;
                             mkBitMap "toString" 2%N CNumber])) as (H1 & H2 & H3).
  split; [exact H1 | split].
  - apply (H2 (mkBitMap "toString" 2%N CNumber)). reflexivity.
  - apply H3. reflexivity.
Defined.

Lemma encode_present_range (fields : list BitMap) (o : Obj) :
  forall p, - 2 ^ 31 <= encode_present fields o p < 2 ^ 31.
Proof.
  induction fields as [| b fields IH]; intros p; simpl; [lia |].
  rewrite <- (wrap32_id (encode_present fields o (p + bits b))) by apply IH.
  destruct (own o (name b)) as [x |].
  - unfold js_shl. rewrite wrap32_lor. apply wrap32_range.
  - rewrite Z.lor_0_l. apply wrap32_range.
Qed.

Lemma js_shl_small (e p w : Z) :
  0 <= e < 2 ^ w -> 0 <= p -> 0 <= w <= 31 -> p + w <= 32 ->
  js_shl (num_of_Z e) p = wrap32 (Z.shiftl e p).
Proof.
  intros He Hp Hw Hpw. unfold js_shl. rewrite ToInt32_num_of_Z.
  assert (2 ^ w <= 2 ^ 31) by (apply Z.pow_le_mono_r; lia).
  rewrite (wrap32_id e) by lia.
  destruct (Z.eq_dec p 32) as [-> | Hne].
  - assert (w = 0) by lia. subst w. change (2 ^ 0) with 1 in He.
    replace e with 0 by lia. now rewrite !Z.shiftl_0_l.
  - now rewrite Z.mod_small by lia.
Qed.

Lemma js_shl_nonneg (e p w : Z) :
  0 <= e < 2 ^ w -> 0 <= p -> 0 <= w -> p + w <= 31 ->
  0 <= js_shl (num_of_Z e) p.
Proof.
  intros He Hp Hw Hpw. rewrite (js_shl_small e p w) by lia.
  rewrite Z.shiftl_mul_pow2 by lia.
  assert (0 < 2 ^ p) by (apply Z.pow_pos_nonneg; lia).
  assert (2 ^ (w + p) <= 2 ^ 31) by (apply Z.pow_le_mono_r; lia).
  rewrite Z.pow_add_r in * by lia.
  rewrite wrap32_id; nia.
Qed.

Lemma encode_present_nonneg (fields : list BitMap) (o : Obj) :
  forall p,
    0 <= p -> p + total_bits fields <= 31 -> Forall (fits o) fields ->
    0 <= encode_present fields o p.
Proof.
  induction fields as [| b fields IH]; intros p Hp Hsum Hfit; simpl; [lia |].
  inversion Hfit as [| ? ? Hb Hrest]; subst. simpl in Hsum.
  pose proof (bits_nonneg b). pose proof (total_bits_nonneg fields).
  apply Z.lor_nonneg. split; [| apply IH; (assumption || lia)].
  unfold fits in Hb. destruct (own o (name b)) as [[n | x] |]; [| | lia].
  - destruct Hb as (z & -> & Hz). apply (js_shl_nonneg z p (bits b)); lia.
  - destruct x; simpl.
    + apply (js_shl_nonneg 1 p (bits b)); try lia.
      assert (2 ^ 1 <= 2 ^ bits b) by (apply Z.pow_le_mono_r; lia).
      change (2 ^ 1) with 2 in *. lia.
    + apply (js_shl_nonneg 0 p 0); lia.
Qed.

Lemma js_shl_fit (z p w : Z) :
  0 <= z < 2 ^ w -> 0 <= p -> 0 <= w -> p + w <= 32 ->
  js_shl (num_of_Z z) p = wrap32 (z * 2 ^ p).
Proof.
  intros Hz Hp Hw Hpw. destruct (Z.eq_dec w 32) as [-> | Hne].
  - replace p with 0 by lia. unfold js_shl.
    rewrite ToInt32_num_of_Z. change (0 mod 32) with 0.
    now rewrite Z.shiftl_0_r, wrap32_idem, Z.mul_1_r.
  - rewrite (js_shl_small z p w) by lia. now rewrite Z.shiftl_mul_pow2.
Qed.

Lemma lor_disjoint (a c n : Z) :
  0 <= a < 2 ^ n -> 0 <= n -> Z.lor a (c * 2 ^ n) = a + c * 2 ^ n.
Proof.
  intros Ha Hn.
  assert (E : Z.land a (c * 2 ^ n) = 0).
  { apply Z.bits_inj'. intros k Hk. rewrite Z.land_spec, Z.bits_0.
    destruct (Z_lt_le_dec k n).
    - rewrite Z.mul_pow2_bits_low by assumption. apply andb_false_r.
    - assert (2 ^ n <= 2 ^ k) by (apply Z.pow_le_mono_r; lia).
      now rewrite testbit_small by lia. }
  now rewrite Z.add_nocarry_lxor, Z.lxor_lor.
Qed.

(** What a present value that fits its field adds to the result. *)
Lemma fitting_contribution (o : Obj) (b : BitMap) (p : Z) :
  fits o b -> 0 <= p -> p + bits b <= 32 ->
  exists z,
    0 <= z < 2 ^ bits b /\
    match own o (name b) with Some x => int_value x | None => 0 end = z /\
    match own o (name b) with Some x => js_shl (ToNumber x) p | None => 0 end
    = wrap32 (z * 2 ^ p).
Proof.
  intros Hfit Hp Hpw. pose proof (bits_nonneg b) as Hw.
  assert (0 < 2 ^ bits b) by (apply Z.pow_pos_nonneg; lia).
  unfold fits in Hfit. destruct (own o (name b)) as [[n | x] |].
  - destruct Hfit as (z & -> & Hz). exists z. simpl.
    rewrite trunc_inject_Z. repeat split; try lia.
    now apply (js_shl_fit z p (bits b)).
  - destruct x.
    + assert (2 ^ 1 <= 2 ^ bits b) by (apply Z.pow_le_mono_r; lia).
      change (2 ^ 1) with 2 in *. exists 1. simpl. repeat split; try lia.
      apply (js_shl_fit 1 p (bits b)); lia.
    + exists 0. simpl. repeat split; try lia.
      apply (js_shl_fit 0 p (bits b)); lia.
  - exists 0. repeat split; try lia.
Qed.

Lemma encode_present_pattern (fields : list BitMap) (o : Obj) :
  forall p,
    0 <= p -> p + total_bits fields <= 32 -> Forall (fits o) fields ->
    exists c,
      0 <= c < 2 ^ total_bits fields /\
      pattern fields o p = c * 2 ^ p /\
      encode_present fields o p = wrap32 (pattern fields o p).
Proof.
  induction fields as [| b fields IH]; intros p Hp Hsum Hfit; simpl.
  - exists 0. repeat split; lia.
  - inversion Hfit as [| ? ? Hb Hrest]; subst. simpl in Hsum.
    pose proof (bits_nonneg b) as Hw.
    pose proof (total_bits_nonneg fields) as Hws.
    destruct (IH (p + bits b)) as (c & Hc & Hpat & Henc); try assumption;
      try lia.
    destruct (fitting_contribution o b p) as (z & Hz & -> & ->);
      try assumption; try lia.
    assert (0 < 2 ^ p) by (apply Z.pow_pos_nonneg; lia).
    assert (0 < 2 ^ bits b) by (apply Z.pow_pos_nonneg; lia).
    exists (z + c * 2 ^ bits b). split; [| split].
    + rewrite Z.pow_add_r by lia. nia.
    + rewrite Hpat, Z.pow_add_r by lia. ring.
    + rewrite Henc, wrap32_lor. f_equal. rewrite Hpat.
      replace (c * 2 ^ (p + bits b)) with (Z.shiftl (c * 2 ^ bits b) p)
        by (rewrite Z.shiftl_mul_pow2, Z.pow_add_r by lia; ring).
      replace (z * 2 ^ p) with (Z.shiftl z p)
        by (apply Z.shiftl_mul_pow2; lia).
      rewrite <- Z.shiftl_lor, lor_disjoint by lia.
      rewrite !Z.shiftl_mul_pow2 by lia. ring.
Qed.

(** C4, as the code has it.  Encoding returns a signed 32-bit integer.
    When the values fit their fields, the result is the combined bit
    pattern, a number below 2^32, read as a signed 32-bit integer: the
    pattern itself when it is below 2^31, and the pattern minus 2^32, a
    negative number, when bit 31 is set.  A schema of at most 31 bits
    never sets bit 31, so its result is not negative. *)
Theorem fromObject_sign
    (l : list (Value * Value * Value)) (S : ConfigBits) (o : Obj) :
  build l = Ok S ->
  own o "constructor" = None ->
  exists r,
    fromObject S (VObject o) = Ok r /\
    - 2 ^ 31 <= r < 2 ^ 31 /\
    (Forall (fits o) (bitMap S) ->
     0 <= pattern (bitMap S) o 0 < 2 ^ 32 /\
     r = (if pattern (bitMap S) o 0 <? 2 ^ 31
          then pattern (bitMap S) o 0
          else pattern (bitMap S) o 0 - 2 ^ 32) /\
     (total_bits (bitMap S) <= 31 -> 0 <= r)).
Proof.
  intros HS H. apply build_inv in HS as [Hsum _].
  exists (encode_present (bitMap S) o 0).
  split; [now apply fromObject_present | split].
  - apply encode_present_range.
  - intros Hfit.
    destruct (encode_present_pattern (bitMap S) o 0) as (c & Hc & Hpat & Henc);
      try assumption; try lia.
    pose proof (total_bits_nonneg (bitMap S)) as Hw.
    assert (2 ^ total_bits (bitMap S) <= 2 ^ 32)
      by (apply Z.pow_le_mono_r; lia).
    rewrite Z.mul_1_r in Hpat. rewrite Henc, Hpat.
    split; [lia | split].
    + unfold wrap32. rewrite Z.mod_small by lia.
      destruct (Z.leb_spec (2 ^ 31) c), (Z.ltb_spec c (2 ^ 31)); lia.
    + intros H31. rewrite <- Hpat, <- Henc.
      apply encode_present_nonneg; (assumption || lia).
Qed.

Lemma fromObject_sign_witness :
  exists r,
    fromObject (mkConfigBits [mkBitMap "a" 16%N CNumber; mkBitMap "b" 16%N CNumber])
               (VObject [("a", PNum (num_of_Z 3)); ("b", PNum (num_of_Z 32768))])
    = Ok r /\
    - 2 ^ 31 <= r < 2 ^ 31 /\
    (Forall (fits [("a", PNum (num_of_Z 3)); ("b", PNum (num_of_Z 32768))])
            [mkBitMap "a" 16%N CNumber; mkBitMap "b" 16%N CNumber] ->
     0 <= pattern [mkBitMap "a" 16%N CNumber; mkBitMap "b" 16%N CNumber]
                  [("a", PNum (num_of_Z 3)); ("b", PNum (num_of_Z 32768))] 0
       < 2 ^ 32 /\
     r = (if pattern [mkBitMap "a" 16%N CNumber; mkBitMap "b" 16%N CNumber]
                     [("a", PNum (num_of_Z 3)); ("b", PNum (num_of_Z 32768))] 0
             <? 2 ^ 31
          then pattern [mkBitMap "a" 16%N CNumber; mkBitMap "b" 16%N CNumber]
                       [("a", PNum (num_of_Z 3)); ("b", PNum (num_of_Z 32768))] 0
          else pattern [mkBitMap "a" 16%N CNumber; mkBitMap "b" 16%N CNumber]
                       [("a", PNum (num_of_Z 3)); ("b", PNum (num_of_Z 32768))] 0
               - 2 ^ 32) /\
     (total_bits [mkBitMap "a" 16%N CNumber; mkBitMap "b" 16%N CNumber] <= 31 ->
      0 <= r)).
Proof.
  apply (fromObject_sign
           [(VStr "a", VNum (num_of_Z 16), VUndefined);
            (VStr "b", VNum (num_of_Z 16), VUndefined)]
           (mkConfigBits [mkBitMap "a" 16%N CNumber; mkBitMap "b" 16%N CNumber])
           [("a", PNum (num_of_Z 3)); ("b", PNum (num_of_Z 32768))]).
  - reflexivity.
  - reflexivity.
Defined.

(** C4 refuted as stated: with two fields of 16 bits and the in-range
    values 0 and 32768 the pattern has bit 31 set and the result is
    -2147483648. *)
Lemma fromObject_negative_when_bit_31_set :
  build [(VStr "a", VNum (num_of_Z 16), VUndefined);
         (VStr "b", VNum (num_of_Z 16), VUndefined)]
    = Ok (mkConfigBits [mkBitMap "a" 16%N CNumber; mkBitMap "b" 16%N CNumber]) /\
  Forall (fits [("a", PNum (num_of_Z 0)); ("b", PNum (num_of_Z 32768))])
         [mkBitMap "a" 16%N CNumber; mkBitMap "b" 16%N CNumber] /\
  fromObject (mkConfigBits [mkBitMap "a" 16%N CNumber; mkBitMap "b" 16%N CNumber])
             (VObject [("a", PNum (num_of_Z 0)); ("b", PNum (num_of_Z 32768))])
    = Ok (-2147483648).
Proof.
  split; [reflexivity | split; [| reflexivity]].
  repeat constructor.
  - exists 0. split; [reflexivity |]. vm_compute. split; [discriminate | reflexivity].
  - exists 32768. split; [reflexivity |]. vm_compute. split; [discriminate | reflexivity].
Qed.

(** ** Properties of an object after assignments *)

Lemma own_update_other (o : Obj) (k k' : string) (x : Prim) :
  k' <> k -> own (update o k x) k' = own o k'.
Proof.
  intros Hne. induction o as [| [j y] o IH]; simpl; [reflexivity |].
  destruct (String.eqb_spec j k) as [-> | Hjk]; simpl.
  - destruct (String.eqb_spec k k'); [congruence | reflexivity].
  - now rewrite IH.
Qed.

Lemma own_update_same (o : Obj) (k : string) (x y : Prim) :
  own o k = Some y -> own (update o k x) k = Some x.
Proof.
  induction o as [| [j z] o IH]; simpl; [discriminate |].
  destruct (String.eqb_spec j k) as [-> | Hjk]; simpl.
  - now rewrite String.eqb_refl.
  - intros H. destruct (String.eqb_spec j k); [contradiction | now apply IH].
Qed.

Lemma own_insert_index_other (o : Obj) (k k' : string) (i : N) (x : Prim) :
  k' <> k -> own (insert_index o k i x) k' = own o k'.
Proof.
  intros Hne. induction o as [| [j y] o IH]; simpl.
  - destruct (String.eqb_spec k k'); [congruence | reflexivity].
  - destruct (array_index j) as [n |]; [destruct (i <? n)%N |]; simpl;
      try (destruct (String.eqb_spec k k'); [congruence | reflexivity]).
    now rewrite IH.
Qed.

Lemma own_insert_index_same (o : Obj) (k : string) (i : N) (x : Prim) :
  own o k = None -> own (insert_index o k i x) k = Some x.
Proof.
  induction o as [| [j y] o IH]; simpl.
  - now rewrite String.eqb_refl.
  - destruct (String.eqb_spec j k) as [-> | Hjk]; [discriminate |].
    intros H.
    destruct (array_index j) as [n |]; [destruct (i <? n)%N |]; simpl;
      rewrite ?String.eqb_refl; try reflexivity.
    destruct (String.eqb_spec j k); [contradiction | now apply IH].
Qed.

Lemma own_app_other (o : Obj) (k k' : string) (x : Prim) :
  k' <> k -> own (o ++ [(k, x)]) k' = own o k'.
Proof.
  intros Hne. induction o as [| [j y] o IH]; simpl.
  - destruct (String.eqb_spec k k'); [congruence | reflexivity].
  - now rewrite IH.
Qed.

Lemma own_app_same (o : Obj) (k : string) (x : Prim) :
  own o k = None -> own (o ++ [(k, x)]) k = Some x.
Proof.
  induction o as [| [j y] o IH]; simpl.
  - now rewrite String.eqb_refl.
  - destruct (String.eqb_spec j k); [discriminate | assumption].
Qed.

Lemma own_obj_set_other (o : Obj) (k k' : string) (x : Prim) :
  k' <> k -> own (obj_set o k x) k' = own o k'.
Proof.
  intros Hne. unfold obj_set. destruct (own o k).
  - now apply own_update_other.
  - destruct (String.eqb k "__proto__"); [reflexivity |].
    destruct (array_index k).
    + now apply own_insert_index_other.
    + now apply own_app_other.
Qed.

Lemma own_obj_set_same (o : Obj) (k : string) (x : Prim) :
  k <> "__proto__" -> own (obj_set o k x) k = Some x.
Proof.
  intros Hne. unfold obj_set. destruct (own o k) eqn:E.
  - eapply own_update_same, E.
  - destruct (String.eqb_spec k "__proto__"); [contradiction |].
    destruct (array_index k).
    + now apply own_insert_index_same.
    + now apply own_app_same.
Qed.

Lemma own_fold_other (entries : list (string * Prim)) (k : string) :
  ~ In k (map fst entries) ->
  forall o,
    own (fold_left (fun o e => obj_set o (fst e) (snd e)) entries o) k = own o k.
Proof.
  induction entries as [| [j y] entries IH]; intros Hk o; simpl; [reflexivity |].
  simpl in Hk. rewrite IH by tauto. apply own_obj_set_other.
  intros ->. tauto.
Qed.

Lemma own_fold_in (entries : list (string * Prim)) :
  NoDup (map fst entries) ->
  ~ In "__proto__" (map fst entries) ->
  forall o k x,
    In (k, x) entries ->
    own (fold_left (fun o e => obj_set o (fst e) (snd e)) entries o) k = Some x.
Proof.
  induction entries as [| [j y] entries IH]; intros Hnd Hproto o k x Hin;
    simpl in *; [contradiction |].
  inversion Hnd as [| ? ? Hj Hrest]; subst.
  destruct Hin as [E | Hin].
  - injection E as -> ->. rewrite own_fold_other by assumption.
    apply own_obj_set_same. intros ->. tauto.
  - apply IH; tauto.
Qed.

Lemma field_entries_names (fields : list BitMap) (n : Num) :
  forall p, map fst (field_entries fields n p) = map name fields.
Proof.
  induction fields as [| b fields IH]; intros p; simpl; [reflexivity |].
  now rewrite IH.
Qed.

(** ** Round trip *)

Lemma extract_testbit (v p w j : Z) :
  0 <= w ->
  Z.testbit (extract v p w) j = (0 <=? j) && (j <? w) && Z.testbit v (j + p).
Proof.
  intros Hw. unfold extract. destruct (Z.leb_spec 0 j).
  - rewrite Z.land_spec, Z.shiftr_spec, Z.testbit_ones_nonneg by lia.
    simpl. apply andb_comm.
  - now rewrite Z.testbit_neg_r by lia.
Qed.

(** Two adjacent fields, put in place, are the field that spans both. *)
Lemma extract_split (v p w w' : Z) :
  0 <= p -> 0 <= w -> 0 <= w' ->
  Z.lor (Z.shiftl (extract v p w) p)
        (Z.shiftl (extract v (p + w) w') (p + w))
  = Z.shiftl (extract v p (w + w')) p.
Proof.
  intros Hp Hw Hw'. apply Z.bits_inj'. intros k Hk.
  rewrite Z.lor_spec, !Z.shiftl_spec, !extract_testbit by lia.
  replace (k - p + p) with k by lia.
  replace (k - (p + w) + (p + w)) with k by lia.
  destruct (Z.leb_spec 0 (k - p)), (Z.ltb_spec (k - p) w),
    (Z.leb_spec 0 (k - (p + w))), (Z.ltb_spec (k - (p + w)) w'),
    (Z.ltb_spec (k - p) (w + w'));
    simpl; try lia; try reflexivity; now rewrite ?orb_false_r.
Qed.

Lemma js_shl_decoded (v p : Z) (b : BitMap) :
  BitMap_inv b -> 0 <= p -> p + bits b <= 32 ->
  js_shl (ToNumber (decoded_value v p b)) p
  = wrap32 (Z.shiftl (extract v p (bits b)) p).
Proof.
  intros Hinv Hp Hpw. pose proof (bits_nonneg b) as Hw.
  pose proof (extract_range v p (bits b) Hw) as Hr.
  assert (Hnum : js_shl (num_of_Z (if bits b =? 32 then wrap32 v
                                   else extract v p (bits b))) p
                 = wrap32 (Z.shiftl (extract v p (bits b)) p)).
  { destruct (Z.eqb_spec (bits b) 32) as [E | Hne].
    - rewrite E. replace p with 0 by lia.
      unfold js_shl. rewrite ToInt32_num_of_Z, wrap32_idem.
      change (0 mod 32) with 0. rewrite !Z.shiftl_0_r, wrap32_idem.
      apply wrap32_mod_eq. unfold extract.
      rewrite Z.shiftr_0_r, Z.land_ones by lia. symmetry. apply Z.mod_mod. lia.
    - apply (js_shl_small _ p (bits b)); lia. }
  unfold decoded_value. destruct (dataType b) eqn:Ed; try exact Hnum.
  rewrite (Hinv Ed) in *. change (2 ^ 1) with 2 in Hr.
  destruct (Z.eqb_spec (extract v p 1) 1) as [E | Hne]; simpl.
  - rewrite E. apply (js_shl_small 1 p 1); lia.
  - replace (extract v p 1) with 0 by lia. apply (js_shl_small 0 p 1); lia.
Qed.

Lemma encode_present_decoded (v : Z) (o : Obj) (fields : list BitMap) :
  forall p,
    Forall BitMap_inv fields -> 0 <= p -> p + total_bits fields <= 32 ->
    (forall k x, In (k, x) (field_entries fields (num_of_Z v) p) ->
                 own o k = Some x) ->
    encode_present fields o p
    = wrap32 (Z.shiftl (extract v p (total_bits fields)) p).
Proof.
  induction fields as [| b fields IH]; intros p Hinv Hp Hsum Hown; simpl.
  - unfold extract. now rewrite Z.land_0_r, Z.shiftl_0_l.
  - inversion Hinv as [| ? ? Hb Hrest]; subst. simpl in Hsum, Hown.
    pose proof (bits_nonneg b). pose proof (total_bits_nonneg fields).
    rewrite (Hown (name b) (field_value (num_of_Z v) p b)) by now left.
    rewrite field_value_decoded, js_shl_decoded by (assumption || lia).
    rewrite IH by (try assumption; try lia; intros; apply Hown; now right).
    rewrite wrap32_lor. now rewrite extract_split by lia.
Qed.

(** C1, as the code has it.  For a constructed schema whose field names
    are pairwise distinct and are neither ["__proto__"] nor
    ["constructor"], and for every integer [v] with
    [0 <= v <= 2^w - 1], [w] the total width: decoding [v] succeeds, and
    encoding the decoded object returns [v] read as a signed 32-bit
    integer, that is [v] itself below 2^31 and [v - 2^32] from 2^31 on. *)
Theorem fromObject_toObject_roundtrip
    (l : list (Value * Value * Value)) (S : ConfigBits) (v : Z) :
  build l = Ok S ->
  NoDup (map name (bitMap S)) ->
  ~ In "__proto__" (map name (bitMap S)) ->
  ~ In "constructor" (map name (bitMap S)) ->
  0 <= v < 2 ^ total_bits (bitMap S) ->
  exists o,
    toObject S (VNum (num_of_Z v)) = Ok o /\
    fromObject S (VObject o) = Ok (if v <? 2 ^ 31 then v else v - 2 ^ 32).
Proof.
  intros HS Hnd Hproto Hctor Hv. apply build_inv in HS as [Hsum Hinv].
  pose proof (total_bits_nonneg (bitMap S)) as Hw.
  assert (H32 : 2 ^ total_bits (bitMap S) <= 2 ^ 32)
    by (apply Z.pow_le_mono_r; lia).
  set (entries := field_entries (bitMap S) (num_of_Z v) 0).
  exists (obj_of_entries entries). split.
  - unfold toObject.
    pass_constructor_tests. rewrite in_range_accepted by lia.
    now rewrite toObject_loop_entries.
  - assert (Hnames : map fst entries = map name (bitMap S))
      by apply field_entries_names.
    rewrite fromObject_present.
    + f_equal. rewrite (encode_present_decoded v); try assumption; try lia.
      * rewrite Z.shiftl_0_r. unfold extract.
        rewrite Z.shiftr_0_r, Z.land_ones, Z.mod_small by lia.
        unfold wrap32. rewrite Z.mod_small by lia.
        destruct (Z.leb_spec (2 ^ 31) v), (Z.ltb_spec v (2 ^ 31)); lia.
      * intros k x Hin. apply own_fold_in; rewrite ?Hnames; assumption.
    + unfold obj_of_entries. rewrite own_fold_other; [reflexivity |].
      now rewrite Hnames.
Qed.

Lemma fromObject_toObject_roundtrip_witness :
  exists o,
    toObject (mkConfigBits [mkBitMap "auto_save" 1%N CBoolean;
                            mkBitMap "indent_type" 1%N CNumber;
                            mkBitMap "indent_size" 2%N CNumber])
             (VNum (num_of_Z 13)) = Ok o /\
    fromObject (mkConfigBits [mkBitMap "auto_save" 1%N CBoolean;
                              mkBitMap "indent_type" 1%N CNumber;
                              mkBitMap "indent_size" 2%N CNumber])
               (VObject o)
    = Ok (if 13 <? 2 ^ 31 then 13 else 13 - 2 ^ 32).
Proof.
  apply (fromObject_toObject_roundtrip scenario_fields
           (mkConfigBits [mkBitMap "auto_save" 1%N CBoolean;
                          mkBitMap "indent_type" 1%N CNumber;
                          mkBitMap "indent_size" 2%N CNumber]) 13).
  - reflexivity.
  - repeat constructor; simpl; intuition discriminate.
  - simpl; intuition discriminate.
  - simpl; intuition discriminate.
  - vm_compute. split; [discriminate | reflexivity].
Defined.

(** C1 refuted as stated.  With two fields of 16 bits, 4294967295 decodes
    and encodes back to -1.  With two fields of the same name the second
    value overwrites the first, and 1 comes back as 0.  A field named
    ["__proto__"] is not stored by decoding, and 1 comes back as 0.  A
    field named ["constructor"] makes the decoded object fail the test
    of [fromObject]. *)
Lemma fromObject_toObject_not_identity :
  build [(VStr "a", VNum (num_of_Z 16), VUndefined);
         (VStr "b", VNum (num_of_Z 16), VUndefined)]
    = Ok (mkConfigBits [mkBitMap "a" 16%N CNumber; mkBitMap "b" 16%N CNumber]) /\
  toObject (mkConfigBits [mkBitMap "a" 16%N CNumber; mkBitMap "b" 16%N CNumber])
           (VNum (num_of_Z 4294967295))
    = Ok [("a", PNum (num_of_Z 65535)); ("b", PNum (num_of_Z 65535))] /\
  fromObject (mkConfigBits [mkBitMap "a" 16%N CNumber; mkBitMap "b" 16%N CNumber])
             (VObject [("a", PNum (num_of_Z 65535)); ("b", PNum (num_of_Z 65535))])
    = Ok (-1) /\
  build [(VStr "a", VNum (num_of_Z 1), VUndefined);
         (VStr "a", VNum (num_of_Z 1), VUndefined)]
    = Ok (mkConfigBits [mkBitMap "a" 1%N CNumber; mkBitMap "a" 1%N CNumber]) /\
  toObject (mkConfigBits [mkBitMap "a" 1%N CNumber; mkBitMap "a" 1%N CNumber])
           (VNum (num_of_Z 1))
    = Ok [("a", PNum (num_of_Z 0))] /\
  fromObject (mkConfigBits [mkBitMap "a" 1%N CNumber; mkBitMap "a" 1%N CNumber])
             (VObject [("a", PNum (num_of_Z 0))])
    = Ok 0 /\
  toObject (mkConfigBits [mkBitMap "__proto__" 1%N CNumber]) (VNum (num_of_Z 1))
    = Ok [] /\
  fromObject (mkConfigBits [mkBitMap "__proto__" 1%N CNumber]) (VObject [])
    = Ok 0 /\
  toObject (mkConfigBits [mkBitMap "constructor" 1%N CNumber]) (VNum (num_of_Z 1))
    = Ok [("constructor", PNum (num_of_Z 1))] /\
  fromObject (mkConfigBits [mkBitMap "constructor" 1%N CNumber])
             (VObject [("constructor", PNum (num_of_Z 1))])
    = Throw TypeError.
Proof. repeat split. Qed.

(** * Further properties of the two classes *)

(** ** Construction *)

(** A BitMap that was constructed is of the Number or the Boolean kind,
    is one bit wide when Boolean, and reports a width from 0 to 65535. *)
Theorem BitMap_new_class_invariant (nm w dt : Value) (b : BitMap) :
  BitMap_new nm w dt = Ok b ->
  (dataType b = CNumber \/ dataType b = CBoolean) /\
  (dataType b = CBoolean -> bits b = 1) /\
  0 <= bits b < 65536.
Proof.
  intros H. pose proof (BitMap_new_inv nm w dt b H) as Hinv.
  unfold BitMap_new in H.
  destruct (has_constructor nm CString); [| discriminate].
  destruct (has_constructor w CNumber); [| discriminate].
  cbn [negb] in H. destruct (num_gt (number_of w) 32); [discriminate |].
  set (d := match dt with VUndefined => VCtor CNumber | _ => dt end) in H.
  destruct (negb (is_ctor d CNumber) && negb (is_ctor d CBoolean)) eqn:Ed;
    [discriminate |].
  destruct (is_ctor d CBoolean && num_neq (number_of w) 1); [discriminate |].
  injection H as <-. cbn [name dataType bits bits_char].
  split; [| split; [exact Hinv |]].
  - destruct d as [| | | | | [] | | |]; try discriminate; auto.
  - assert (0 <= ToUint16 (number_of w) < 2 ^ 16).
    { destruct (number_of w); simpl; try lia. apply Z.mod_pos_bound. lia. }
    unfold bits. cbn [bits_char]. rewrite Z2N.id; lia.
Qed.

Lemma BitMap_new_class_invariant_witness :
  (dataType (mkBitMap "flag" 1%N CBoolean) = CNumber \/
   dataType (mkBitMap "flag" 1%N CBoolean) = CBoolean) /\
  (dataType (mkBitMap "flag" 1%N CBoolean) = CBoolean ->
   bits (mkBitMap "flag" 1%N CBoolean) = 1) /\
  0 <= bits (mkBitMap "flag" 1%N CBoolean) < 65536.
Proof.
  apply (BitMap_new_class_invariant
           (VStr "flag") (VNum (num_of_Z 1)) (VCtor CBoolean)).
  reflexivity.
Defined.

Lemma ToUint16_num_of_Z (w : Z) : ToUint16 (num_of_Z w) = w mod 2 ^ 16.
Proof. unfold ToUint16, num_of_Z. now rewrite trunc_inject_Z. Qed.

Lemma num_gt_num_of_Z_false (w c : Z) : w <= c -> num_gt (num_of_Z w) c = false.
Proof. intros H. apply num_gt_Fin_false. now rewrite <- Zle_Qle. Qed.

(** The width survives the trip through the one-character string: a
    BitMap made with an integral width from 0 to 32, of the Integer kind,
    reports that width and that name; a Boolean BitMap of width 1 reports
    width 1. *)
Theorem BitMap_new_accessors (s : string) (w : Z) :
  0 <= w <= 32 ->
  (exists b, BitMap_new (VStr s) (VNum (num_of_Z w)) VUndefined = Ok b /\
             name b = s /\ bits b = w /\ dataType b = CNumber) /\
  (exists b, BitMap_new (VStr s) (VNum (num_of_Z 1)) (VCtor CBoolean) = Ok b /\
             name b = s /\ bits b = 1 /\ dataType b = CBoolean).
Proof.
  intros Hw. split.
  - eexists. split.
    + unfold BitMap_new. pass_constructor_tests.
      rewrite num_gt_num_of_Z_false by lia. reflexivity.
    + cbn [name bits bits_char dataType ctor_of].
      rewrite ToUint16_num_of_Z, Z.mod_small by lia.
      repeat split. apply Z2N.id. lia.
  - eexists. split; [reflexivity | repeat split].
Qed.

Lemma BitMap_new_accessors_witness :
  (exists b, BitMap_new (VStr "size") (VNum (num_of_Z 32)) VUndefined = Ok b /\
             name b = "size" /\ bits b = 32 /\ dataType b = CNumber) /\
  (exists b, BitMap_new (VStr "size") (VNum (num_of_Z 1)) (VCtor CBoolean) = Ok b /\
             name b = "size" /\ bits b = 1 /\ dataType b = CBoolean).
Proof. apply (BitMap_new_accessors "size" 32). lia. Defined.

(** With a string name and a numeric width, a width above 32 is refused
    with [RangeError] whatever the kind argument is; a width up to 32
    with a kind argument that is neither absent, [Number] nor [Boolean]
    is refused with [TypeError]. *)
Theorem BitMap_new_width_and_kind_errors (s : string) (q : Q) (dt : Value) :
  ((inject_Z 32 < q)%Q ->
   BitMap_new (VStr s) (VNum (Fin q)) dt = Throw RangeError) /\
  ((q <= inject_Z 32)%Q ->
   dt <> VUndefined -> dt <> VCtor CNumber -> dt <> VCtor CBoolean ->
   BitMap_new (VStr s) (VNum (Fin q)) dt = Throw TypeError).
Proof.
  split.
  - intros H. unfold BitMap_new. pass_constructor_tests.
    now rewrite (num_gt_Fin_true q 32 H).
  - intros H Hu Hn Hb. unfold BitMap_new. pass_constructor_tests.
    rewrite (num_gt_Fin_false q 32 H).
    destruct dt as [| | | | | [] | | |]; try reflexivity; congruence.
Qed.

Lemma BitMap_new_width_and_kind_errors_witness :
  BitMap_new (VStr "a") (VNum (Fin (inject_Z 33))) (VStr "Boolean")
    = Throw RangeError /\
  BitMap_new (VStr "a") (VNum (Fin (inject_Z 4))) (VCtor CString)
    = Throw TypeError.
Proof.
  split.
  - apply (BitMap_new_width_and_kind_errors "a" (inject_Z 33) (VStr "Boolean")).
    reflexivity.
  - apply (BitMap_new_width_and_kind_errors "a" (inject_Z 4) (VCtor CString));
      discriminate.
Defined.

(** A negative integral width down to -65503 is accepted by [BitMap],
    which then reports the width plus 65536; no schema can hold such a
    BitMap: wherever it stands after BitMaps that fit, construction of
    the ConfigBits fails with [RangeError]. *)
Theorem BitMap_new_negative_width
    (s : string) (w : Z) (pre : list BitMap) (suffix : list Value) :
  - 65503 <= w < 0 ->
  total_bits pre <= 32 ->
  exists b,
    BitMap_new (VStr s) (VNum (num_of_Z w)) VUndefined = Ok b /\
    bits b = w + 65536 /\
    ConfigBits_new (map VBitMap pre ++ VBitMap b :: suffix) = Throw RangeError.
Proof.
  intros Hw Hpre. eexists. split; [| split].
  - unfold BitMap_new. pass_constructor_tests.
    rewrite num_gt_num_of_Z_false by lia. reflexivity.
  - cbn [bits bits_char]. rewrite ToUint16_num_of_Z.
    replace (w mod 2 ^ 16) with (w + 65536)
      by (apply (Z.mod_unique _ _ (-1)); lia).
    apply Z2N.id. lia.
  - set (b := mkBitMap _ _ _).
    assert (Hb : bits b = w + 65536).
    { unfold b. cbn [bits bits_char]. rewrite ToUint16_num_of_Z.
      replace (w mod 2 ^ 16) with (w + 65536)
        by (apply (Z.mod_unique _ _ (-1)); lia).
      apply Z2N.id. lia. }
    assert (E : ConfigBits_loop (map VBitMap pre ++ VBitMap b :: suffix) 0 []
                = Throw RangeError).
    { rewrite ConfigBits_loop_prefix by lia. simpl.
      pose proof (total_bits_nonneg pre).
      destruct (Z.ltb_spec 32 (total_bits pre + bits b)); [reflexivity | lia]. }
    unfold ConfigBits_new.
    destruct (map VBitMap pre ++ VBitMap b :: suffix) eqn:El; [| exact E].
    destruct pre; discriminate.
Qed.

Lemma BitMap_new_negative_width_witness :
  exists b,
    BitMap_new (VStr "n") (VNum (num_of_Z (-1))) VUndefined = Ok b /\
    bits b = -1 + 65536 /\
    ConfigBits_new (map VBitMap [mkBitMap "a" 3%N CNumber]
                    ++ VBitMap b :: [VNull]) = Throw RangeError.
Proof.
  apply (BitMap_new_negative_width "n" (-1) [mkBitMap "a" 3%N CNumber] [VNull]).
  - lia.
  - vm_compute. discriminate.
Defined.

(** Construction of a ConfigBits with no argument fails with
    [ArgumentError]; and when the first argument whose [constructor] is
    not [BitMap] comes after BitMap instances whose widths sum to at most
    32, construction fails with [TypeError] whatever follows. *)
Theorem ConfigBits_new_argument_errors
    (pre : list BitMap) (v : Value) (suffix : list Value) :
  ConfigBits_new [] = Throw ArgumentError /\
  (has_constructor v CBitMap = false ->
   total_bits pre <= 32 ->
   ConfigBits_new (map VBitMap pre ++ v :: suffix) = Throw TypeError).
Proof.
  split; [reflexivity |]. intros Hv Hpre.
  assert (E : ConfigBits_loop (map VBitMap pre ++ v :: suffix) 0 []
              = Throw TypeError).
  { rewrite ConfigBits_loop_prefix by lia. simpl.
    destruct v; try reflexivity. discriminate. }
  unfold ConfigBits_new.
  destruct (map VBitMap pre ++ v :: suffix) eqn:El; [| exact E].
  destruct pre; discriminate.
Qed.

Lemma ConfigBits_new_argument_errors_witness :
  ConfigBits_new [] = Throw ArgumentError /\
  ConfigBits_new (map VBitMap [mkBitMap "a" 3%N CNumber]
                  ++ VObject [] :: [VBitMap (mkBitMap "b" 40%N CNumber)])
  = Throw TypeError.
Proof.
  destruct (ConfigBits_new_argument_errors
              [mkBitMap "a" 3%N CNumber] (VObject [])
              [VBitMap (mkBitMap "b" 40%N CNumber)]) as [H1 H2].
  split; [exact H1 |]. apply H2.
  - reflexivity.
  - vm_compute. discriminate.
Defined.

(** On a list of BitMap instances, construction of a ConfigBits succeeds
    exactly when the list is not empty and the widths sum to at most 32,
    and the schema then holds those BitMaps in the order given. *)
Theorem ConfigBits_new_success (fields : list BitMap) (S : ConfigBits) :
  ConfigBits_new (map VBitMap fields) = Ok S <->
  fields <> [] /\ total_bits fields <= 32 /\ S = mkConfigBits fields.
Proof.
  split.
  - intros H. pose proof (ConfigBits_new_inv _ S H) as [Hargs Hsum].
    assert (E : bitMap S = fields).
    { clear - Hargs. revert Hargs. generalize (bitMap S). intros l.
      revert l. induction fields as [| b fields IH]; intros [| c l] E;
        try discriminate; [reflexivity |].
      simpl in E. injection E as -> E. f_equal. now apply IH. }
    destruct S as [l]. simpl in *. subst l. repeat split; try assumption.
    intros ->. discriminate.
  - intros (Hne & Hsum & ->). now apply ConfigBits_new_fields.
Qed.

Lemma ConfigBits_new_success_witness :
  ConfigBits_new (map VBitMap [mkBitMap "a" 20%N CNumber; mkBitMap "b" 12%N CNumber])
  = Ok (mkConfigBits [mkBitMap "a" 20%N CNumber; mkBitMap "b" 12%N CNumber]).
Proof.
  apply (proj2 (ConfigBits_new_success
                  [mkBitMap "a" 20%N CNumber; mkBitMap "b" 12%N CNumber]
                  (mkConfigBits [mkBitMap "a" 20%N CNumber;
                                 mkBitMap "b" 12%N CNumber]))).
  split; [discriminate | split; [| reflexivity]].
  vm_compute. discriminate.
Defined.

(** ** Decoding into a Map and into an object *)

Lemma own_map_set_other (m : JsMap) (k k' : string) (x : Prim) :
  k' <> k -> own (map_set m k x) k' = own m k'.
Proof.
  intros Hne. unfold map_set. destruct (own m k).
  - now apply own_update_other.
  - now apply own_app_other.
Qed.

Lemma own_map_set_same (m : JsMap) (k : string) (x : Prim) :
  own (map_set m k x) k = Some x.
Proof.
  unfold map_set. destruct (own m k) eqn:E.
  - eapply own_update_same, E.
  - now apply own_app_same.
Qed.

Lemma toMap_loop_entries (fields : list BitMap) (n : Num) :
  forall p m,
    toMap_loop fields n p m
    = fold_left (fun m e => map_set m (fst e) (snd e)) (field_entries fields n p) m.
Proof.
  induction fields as [| b fields IH]; intros p m; simpl; [reflexivity |].
  apply IH.
Qed.

Lemma toMap_loop_fresh (fields : list BitMap) (n : Num) :
  forall p m,
    NoDup (map name fields) ->
    (forall b, In b fields -> own m (name b) = None) ->
    toMap_loop fields n p m = m ++ field_entries fields n p.
Proof.
  induction fields as [| b fields IH]; intros p m Hnd Hfresh; simpl.
  - now rewrite app_nil_r.
  - inversion Hnd as [| ? ? Hb Hrest]; subst.
    unfold map_set at 1. rewrite (Hfresh b) by now left.
    rewrite IH; [now rewrite <- app_assoc | assumption |].
    intros b' Hin. rewrite own_app_other; [apply Hfresh; now right |].
    intros E. apply Hb. rewrite <- E. now apply in_map.
Qed.

Lemma field_entries_app (pre post : list BitMap) (n : Num) :
  forall p,
    field_entries (pre ++ post) n p
    = field_entries pre n p ++ field_entries post n (p + total_bits pre).
Proof.
  induction pre as [| a pre IH]; intros p; simpl.
  - now rewrite Z.add_0_r.
  - rewrite IH. do 3 f_equal. lia.
Qed.

Lemma total_bits_app (l1 l2 : list BitMap) :
  total_bits (l1 ++ l2) = total_bits l1 + total_bits l2.
Proof. induction l1 as [| b l1 IH]; simpl; lia. Qed.

Lemma own_fold_map_other (entries : list (string * Prim)) (k : string) :
  ~ In k (map fst entries) ->
  forall m,
    own (fold_left (fun m e => map_set m (fst e) (snd e)) entries m) k = own m k.
Proof.
  induction entries as [| [j y] entries IH]; intros Hk m; simpl; [reflexivity |].
  simpl in Hk. rewrite IH by tauto. apply own_map_set_other.
  intros ->. tauto.
Qed.

(** When the field names are pairwise distinct, [toMap] returns one entry
    per field, in schema order, whatever the names are: the entry of the
    field of index [i] carries its name and the value found at the
    field's offset. *)
Theorem toMap_entries_in_schema_order
    (l : list (Value * Value * Value)) (S : ConfigBits) (v : Z) :
  build l = Ok S ->
  NoDup (map name (bitMap S)) ->
  - 2 ^ 31 <= v <= 2 ^ 32 - 1 ->
  exists m,
    toMap S (VNum (num_of_Z v)) = Ok m /\
    map fst m = map name (bitMap S) /\
    forall i b,
      nth_error (bitMap S) i = Some b ->
      nth_error m i = Some (name b, decoded_value v (offset (bitMap S) i) b).
Proof.
  intros HS Hnd Hv. apply build_inv in HS as [Hsum Hinv].
  exists (field_entries (bitMap S) (num_of_Z v) 0). split; [| split].
  - unfold toMap. pass_constructor_tests.
    rewrite in_range_accepted by assumption.
    now rewrite toMap_loop_fresh by (assumption || reflexivity).
  - apply field_entries_names.
  - intros i b Hi.
    rewrite (field_entries_nth (bitMap S) v 0 i b) by (assumption || lia).
    reflexivity.
Qed.

Lemma toMap_entries_in_schema_order_witness :
  exists m,
    toMap (mkConfigBits [mkBitMap "1" 2%N CNumber; mkBitMap "__proto__" 1%N CBoolean;
                         mkBitMap "0" 3%N CNumber])
          (VNum (num_of_Z 45)) = Ok m /\
    map fst m = map name [mkBitMap "1" 2%N CNumber; mkBitMap "__proto__" 1%N CBoolean;
                          mkBitMap "0" 3%N CNumber] /\
    forall i b,
      nth_error [mkBitMap "1" 2%N CNumber; mkBitMap "__proto__" 1%N CBoolean;
                 mkBitMap "0" 3%N CNumber] i = Some b ->
      nth_error m i
      = Some (name b,
              decoded_value 45
                (offset [mkBitMap "1" 2%N CNumber; mkBitMap "__proto__" 1%N CBoolean;
                         mkBitMap "0" 3%N CNumber] i) b).
Proof.
  apply (toMap_entries_in_schema_order
           [(VStr "1", VNum (num_of_Z 2), VUndefined);
            (VStr "__proto__", VNum (num_of_Z 1), VCtor CBoolean);
            (VStr "0", VNum (num_of_Z 3), VCtor CNumber)]
           (mkConfigBits [mkBitMap "1" 2%N CNumber; mkBitMap "__proto__" 1%N CBoolean;
                          mkBitMap "0" 3%N CNumber]) 45).
  - reflexivity.
  - repeat constructor; simpl; intuition discriminate.
  - vm_compute. split; discriminate.
Defined.

(** A name decodes to the value of the last field that carries it: when
    no later field has the name of field [b], the decoded object (unless
    the name is ["__proto__"]) and the decoded Map hold under that name
    the value found at [b]'s offset. *)
Theorem decode_last_field_wins
    (l : list (Value * Value * Value)) (S : ConfigBits) (v : Z)
    (pre post : list BitMap) (b : BitMap) :
  build l = Ok S ->
  bitMap S = pre ++ b :: post ->
  ~ In (name b) (map name post) ->
  - 2 ^ 31 <= v <= 2 ^ 32 - 1 ->
  (exists m,
     toMap S (VNum (num_of_Z v)) = Ok m /\
     own m (name b) = Some (decoded_value v (total_bits pre) b)) /\
  (name b <> "__proto__" ->
   exists o,
     toObject S (VNum (num_of_Z v)) = Ok o /\
     own o (name b) = Some (decoded_value v (total_bits pre) b)).
Proof.
  intros HS Hfields Hlast Hv. apply build_inv in HS as [Hsum Hinv].
  rewrite Hfields in Hsum, Hinv. rewrite total_bits_app in Hsum. simpl in Hsum.
  pose proof (total_bits_nonneg pre). pose proof (total_bits_nonneg post).
  pose proof (bits_nonneg b).
  assert (Hb : BitMap_inv b).
  { rewrite Forall_forall in Hinv. apply Hinv, in_or_app. right. now left. }
  assert (Hval : field_value (num_of_Z v) (total_bits pre) b
                 = decoded_value v (total_bits pre) b)
    by (apply field_value_decoded; (assumption || lia)).
  split.
  - eexists. split.
    + unfold toMap. pass_constructor_tests.
      rewrite in_range_accepted by assumption. reflexivity.
    + rewrite Hfields, toMap_loop_entries, field_entries_app, fold_left_app.
      simpl. rewrite own_fold_map_other by now rewrite field_entries_names.
      now rewrite own_map_set_same, Hval.
  - intros Hproto. eexists. split.
    + unfold toObject. pass_constructor_tests.
      rewrite in_range_accepted by assumption. reflexivity.
    + rewrite Hfields, toObject_loop_entries, field_entries_app, fold_left_app.
      simpl. rewrite own_fold_other by now rewrite field_entries_names.
      now rewrite own_obj_set_same, Hval.
Qed.

Lemma decode_last_field_wins_witness :
  (exists m,
     toMap (mkConfigBits [mkBitMap "a" 1%N CNumber; mkBitMap "a" 2%N CNumber])
           (VNum (num_of_Z 5)) = Ok m /\
     own m (name (mkBitMap "a" 2%N CNumber))
     = Some (decoded_value 5 (total_bits [mkBitMap "a" 1%N CNumber])
                           (mkBitMap "a" 2%N CNumber))) /\
  (name (mkBitMap "a" 2%N CNumber) <> "__proto__" ->
   exists o,
     toObject (mkConfigBits [mkBitMap "a" 1%N CNumber; mkBitMap "a" 2%N CNumber])
              (VNum (num_of_Z 5)) = Ok o /\
     own o (name (mkBitMap "a" 2%N CNumber))
     = Some (decoded_value 5 (total_bits [mkBitMap "a" 1%N CNumber])
                           (mkBitMap "a" 2%N CNumber))).
Proof.
  apply (decode_last_field_wins
           [(VStr "a", VNum (num_of_Z 1), VUndefined);
            (VStr "a", VNum (num_of_Z 2), VUndefined)]
           (mkConfigBits [mkBitMap "a" 1%N CNumber; mkBitMap "a" 2%N CNumber])
           5 [mkBitMap "a" 1%N CNumber] [] (mkBitMap "a" 2%N CNumber)).
  - reflexivity.
  - reflexivity.
  - simpl. tauto.
  - vm_compute. split; discriminate.
Defined.

Section Decoded_ranges.

Variable P : string * Prim -> Prop.

Lemma Forall_update (o : list (string * Prim)) (k : string) (x : Prim) :
  P (k, x) -> Forall P o -> Forall P (update o k x).
Proof.
  intros Hk. induction 1 as [| [j y] o Hj Ho IH]; simpl; [constructor |].
  destruct (String.eqb_spec j k) as [-> | Hne]; constructor; assumption.
Qed.

Lemma Forall_insert_index (o : Obj) (k : string) (i : N) (x : Prim) :
  P (k, x) -> Forall P o -> Forall P (insert_index o k i x).
Proof.
  intros Hk. induction 1 as [| [j y] o Hj Ho IH]; simpl.
  - repeat constructor. assumption.
  - destruct (array_index j) as [n |]; [destruct (i <? n)%N |];
      repeat (constructor; try assumption).
Qed.

Lemma Forall_obj_set (o : Obj) (k : string) (x : Prim) :
  P (k, x) -> Forall P o -> Forall P (obj_set o k x).
Proof.
  intros Hk Ho. unfold obj_set. destruct (own o k).
  - now apply Forall_update.
  - destruct (String.eqb k "__proto__"); [assumption |].
    destruct (array_index k).
    + now apply Forall_insert_index.
    + apply Forall_app. split; [assumption | now repeat constructor].
Qed.

Lemma Forall_map_set (m : JsMap) (k : string) (x : Prim) :
  P (k, x) -> Forall P m -> Forall P (map_set m k x).
Proof.
  intros Hk Hm. unfold map_set. destruct (own m k).
  - now apply Forall_update.
  - apply Forall_app. split; [assumption | now repeat constructor].
Qed.

Lemma Forall_fold_obj_set (entries : list (string * Prim)) :
  Forall P entries ->
  forall o, Forall P o ->
    Forall P (fold_left (fun o e => obj_set o (fst e) (snd e)) entries o).
Proof.
  induction 1 as [| [k x] entries Hk _ IH]; intros o Ho; simpl;
    [assumption |].
  apply IH. now apply Forall_obj_set.
Qed.

Lemma Forall_fold_map_set (entries : list (string * Prim)) :
  Forall P entries ->
  forall m, Forall P m ->
    Forall P (fold_left (fun m e => map_set m (fst e) (snd e)) entries m).
Proof.
  induction 1 as [| [k x] entries Hk _ IH]; intros m Hm; simpl;
    [assumption |].
  apply IH. now apply Forall_map_set.
Qed.

End Decoded_ranges.

Lemma field_value_in_range (v p : Z) (b : BitMap) :
  BitMap_inv b -> 0 <= p -> p + bits b <= 32 ->
  decoded_range b (field_value (num_of_Z v) p b).
Proof.
  intros Hinv Hp Hpw. rewrite field_value_decoded by assumption.
  pose proof (bits_nonneg b) as Hw.
  unfold decoded_range, decoded_value.
  assert (Hnum : exists z,
             PNum (num_of_Z (if bits b =? 32 then wrap32 v
                             else extract v p (bits b)))
             = PNum (num_of_Z z) /\
             - 2 ^ 31 <= z < 2 ^ 31 /\ (bits b < 32 -> 0 <= z < 2 ^ bits b)).
  { eexists. split; [reflexivity |].
    destruct (Z.eqb_spec (bits b) 32) as [E | Hne].
    - split; [apply wrap32_range | lia].
    - pose proof (extract_range v p (bits b) Hw).
      assert (2 ^ bits b <= 2 ^ 31) by (apply Z.pow_le_mono_r; lia).
      split; [lia | trivial]. }
  destruct (dataType b); try exact Hnum. eexists. reflexivity.
Qed.

Lemma field_entries_in_range (all : list BitMap) (v : Z) (fields : list BitMap) :
  forall p,
    incl fields all -> Forall BitMap_inv fields ->
    0 <= p -> p + total_bits fields <= 32 ->
    Forall (fun e => exists b, In b all /\ name b = fst e /\
                               decoded_range b (snd e))
           (field_entries fields (num_of_Z v) p).
Proof.
  induction fields as [| a fields IH]; intros p Hincl Hinv Hp Hsum; simpl;
    [constructor |].
  inversion Hinv as [| ? ? Ha Hrest]; subst. simpl in Hsum.
  pose proof (bits_nonneg a). pose proof (total_bits_nonneg fields).
  constructor.
  - exists a. split; [apply Hincl; now left | split; [reflexivity |]].
    apply field_value_in_range; (assumption || lia).
  - apply IH; try assumption; try lia.
    intros x Hx. apply Hincl. now right.
Qed.

(** Every property of a decoded object and every entry of a decoded Map
    carries the name of a field of the schema and a value that field can
    hold: a boolean for a Boolean field; for an Integer field a signed
    32-bit integer, which lies in [0, 2^bits - 1] when the field is
    narrower than 32 bits. *)
Theorem decoded_values_in_range
    (l : list (Value * Value * Value)) (S : ConfigBits) (v : Z) :
  build l = Ok S ->
  - 2 ^ 31 <= v <= 2 ^ 32 - 1 ->
  (exists o,
     toObject S (VNum (num_of_Z v)) = Ok o /\
     Forall (fun e => exists b, In b (bitMap S) /\ name b = fst e /\
                                decoded_range b (snd e)) o) /\
  (exists m,
     toMap S (VNum (num_of_Z v)) = Ok m /\
     Forall (fun e => exists b, In b (bitMap S) /\ name b = fst e /\
                                decoded_range b (snd e)) m).
Proof.
  intros HS Hv. apply build_inv in HS as [Hsum Hinv].
  assert (He := field_entries_in_range (bitMap S) v (bitMap S) 0
                  (incl_refl _) Hinv ltac:(lia) ltac:(lia)).
  split; eexists; (split; [| shelve]).
  - unfold toObject. pass_constructor_tests.
    rewrite in_range_accepted by assumption. reflexivity.
  - unfold toMap. pass_constructor_tests.
    rewrite in_range_accepted by assumption. reflexivity.
  Unshelve.
  + rewrite toObject_loop_entries. apply Forall_fold_obj_set; [exact He | constructor].
  + rewrite toMap_loop_entries. apply Forall_fold_map_set; [exact He | constructor].
Qed.

Lemma decoded_values_in_range_witness :
  (exists o,
     toObject (mkConfigBits [mkBitMap "a" 1%N CBoolean; mkBitMap "a" 31%N CNumber])
              (VNum (num_of_Z (-1))) = Ok o /\
     Forall (fun e => exists b,
                In b [mkBitMap "a" 1%N CBoolean; mkBitMap "a" 31%N CNumber] /\
                name b = fst e /\ decoded_range b (snd e)) o) /\
  (exists m,
     toMap (mkConfigBits [mkBitMap "a" 1%N CBoolean; mkBitMap "a" 31%N CNumber])
           (VNum (num_of_Z (-1))) = Ok m /\
     Forall (fun e => exists b,
                In b [mkBitMap "a" 1%N CBoolean; mkBitMap "a" 31%N CNumber] /\
                name b = fst e /\ decoded_range b (snd e)) m).
Proof.
  apply (decoded_values_in_range
           [(VStr "a", VNum (num_of_Z 1), VCtor CBoolean);
            (VStr "a", VNum (num_of_Z 31), VUndefined)]
           (mkConfigBits [mkBitMap "a" 1%N CBoolean; mkBitMap "a" 31%N CNumber])
           (-1)).
  - reflexivity.
  - vm_compute. split; discriminate.
Defined.

Lemma field_value_ToInt32 (n n' : Num) (p : Z) (b : BitMap) :
  ToInt32 n = ToInt32 n' -> field_value n p b = field_value n' p b.
Proof. intros H. unfold field_value, js_shr. now rewrite H. Qed.

Lemma field_entries_ToInt32 (n n' : Num) (fields : list BitMap) :
  ToInt32 n = ToInt32 n' ->
  forall p, field_entries fields n p = field_entries fields n' p.
Proof.
  intros H. induction fields as [| b fields IH]; intros p; simpl;
    [reflexivity |].
  now rewrite IH, (field_value_ToInt32 n n' p b H).
Qed.

Lemma ToInt32_ToInt32 (n : Num) : ToInt32 (num_of_Z (ToInt32 n)) = ToInt32 n.
Proof.
  rewrite ToInt32_num_of_Z. destruct n; try reflexivity.
  simpl. apply wrap32_idem.
Qed.

Lemma ToInt32_accepted (n : Num) :
  num_gt (num_of_Z (ToInt32 n)) 4294967295
  || num_lt (num_of_Z (ToInt32 n)) (-2147483648) = false.
Proof.
  apply in_range_accepted.
  assert (- 2 ^ 31 <= ToInt32 n < 2 ^ 31).
  { destruct n; simpl; try lia. apply wrap32_range. }
  lia.
Qed.

(** Decoding looks at its input only through the conversion to a signed
    32-bit integer: whenever a number is decoded, the result is the one
    for its 32-bit conversion; in particular an unsigned input from 2^31
    to 2^32 - 1 and the negative integer 2^32 below it decode alike. *)
Theorem decode_depends_on_ToInt32 (S : ConfigBits) (n : Num) (v : Z) :
  (forall o, toObject S (VNum n) = Ok o ->
             toObject S (VNum (num_of_Z (ToInt32 n))) = Ok o) /\
  (forall m, toMap S (VNum n) = Ok m ->
             toMap S (VNum (num_of_Z (ToInt32 n))) = Ok m) /\
  (2 ^ 31 <= v <= 2 ^ 32 - 1 ->
   toObject S (VNum (num_of_Z v)) = toObject S (VNum (num_of_Z (v - 2 ^ 32))) /\
   toMap S (VNum (num_of_Z v)) = toMap S (VNum (num_of_Z (v - 2 ^ 32)))).
Proof.
  split; [| split].
  - intros o. unfold toObject. pass_constructor_tests.
    rewrite ToInt32_accepted.
    destruct (num_gt n 4294967295 || num_lt n (-2147483648)); [discriminate |].
    rewrite !toObject_loop_entries.
    now rewrite (field_entries_ToInt32 (num_of_Z (ToInt32 n)) n (bitMap S)
                   (ToInt32_ToInt32 n)).
  - intros m. unfold toMap. pass_constructor_tests.
    rewrite ToInt32_accepted.
    destruct (num_gt n 4294967295 || num_lt n (-2147483648)); [discriminate |].
    rewrite !toMap_loop_entries.
    now rewrite (field_entries_ToInt32 (num_of_Z (ToInt32 n)) n (bitMap S)
                   (ToInt32_ToInt32 n)).
  - intros Hv.
    assert (E : ToInt32 (num_of_Z v) = ToInt32 (num_of_Z (v - 2 ^ 32))).
    { rewrite !ToInt32_num_of_Z. apply wrap32_mod_eq.
      replace (v - 2 ^ 32) with (v + (-1) * 2 ^ 32) by lia.
      now rewrite Z.mod_add by lia. }
    unfold toObject, toMap. pass_constructor_tests.
    rewrite !in_range_accepted by lia.
    rewrite !toObject_loop_entries, !toMap_loop_entries.
    now rewrite (field_entries_ToInt32 _ _ _ E).
Qed.

Lemma decode_depends_on_ToInt32_witness :
  toObject (mkConfigBits [mkBitMap "a" 4%N CNumber])
           (VNum (num_of_Z (ToInt32 (Fin (27 # 2)))))
    = Ok [("a", PNum (num_of_Z 13))] /\
  toMap (mkConfigBits [mkBitMap "a" 4%N CNumber])
        (VNum (num_of_Z (ToInt32 (Fin (27 # 2)))))
    = Ok [("a", PNum (num_of_Z 13))] /\
  toObject (mkConfigBits [mkBitMap "a" 4%N CNumber]) (VNum (num_of_Z 4294967295))
    = toObject (mkConfigBits [mkBitMap "a" 4%N CNumber])
               (VNum (num_of_Z (4294967295 - 2 ^ 32))).
Proof.
  destruct (decode_depends_on_ToInt32
              (mkConfigBits [mkBitMap "a" 4%N CNumber]) (Fin (27 # 2))
              4294967295) as (H1 & H2 & H3).
  split; [| split].
  - apply H1. reflexivity.
  - apply H2. reflexivity.
  - apply H3. vm_compute. split; discriminate.
Defined.

(** ** Encoding from a Map and from an object *)

Lemma contribution_map (m : JsMap) (k : string) (p : Z) :
  js_shl (or_zero_ToNumber (map_get m k)) p
  = match own m k with
    | Some x => js_shl (ToNumber x) p
    | None => 0
    end.
Proof.
  unfold map_get. destruct (own m k) as [x |].
  - simpl. destruct (truthy x) eqn:E; [reflexivity |].
    rewrite (js_shl_zero (ToNumber x)) by now apply falsy_ToInt32.
    now apply js_shl_zero.
  - now apply js_shl_zero.
Qed.

Lemma fromMap_loop_present (fields : list BitMap) (m : JsMap) :
  forall p r,
    fromMap_loop fields m p r = Z.lor r (encode_present fields m p).
Proof.
  induction fields as [| b fields IH]; intros p r; simpl.
  - now rewrite Z.lor_0_r.
  - rewrite IH. unfold js_or. rewrite contribution_map. now rewrite Z.lor_assoc.
Qed.

Lemma fromMap_present (S : ConfigBits) (m : JsMap) :
  fromMap S (VMap m) = Ok (encode_present (bitMap S) m 0).
Proof. unfold fromMap. simpl. now rewrite fromMap_loop_present. Qed.

(** [fromMap] and [fromObject] compute the same integer from the same
    entries: on a plain object that passes [fromObject]'s test, the
    members it inherits from [Object.prototype] never change the result,
    even when a field is named after one of them. *)
Theorem fromMap_fromObject_agree (S : ConfigBits) (entries : list (string * Prim)) :
  own entries "constructor" = None ->
  fromObject S (VObject entries) = fromMap S (VMap entries).
Proof.
  intros H. now rewrite fromObject_present, fromMap_present.
Qed.

Lemma fromMap_fromObject_agree_witness :
  fromObject (mkConfigBits [mkBitMap "toString" 2%N CNumber;
                            mkBitMap "valueOf" 2%N CNumber])
             (VObject [("valueOf", PNum (num_of_Z 3))])
  = fromMap (mkConfigBits [mkBitMap "toString" 2%N CNumber;
                           mkBitMap "valueOf" 2%N CNumber])
            (VMap [("valueOf", PNum (num_of_Z 3))]).
Proof.
  apply (fromMap_fromObject_agree
           (mkConfigBits [mkBitMap "toString" 2%N CNumber;
                          mkBitMap "valueOf" 2%N CNumber])
           [("valueOf", PNum (num_of_Z 3))]).
  reflexivity.
Defined.



Lemma encode_present_ext (fields : list BitMap) (o o' : list (string * Prim)) :
  (forall b, In b fields -> own o (name b) = own o' (name b)) ->
  forall p, encode_present fields o p = encode_present fields o' p.
Proof.
  induction fields as [| b fields IH]; intros H p; simpl; [reflexivity |].
  rewrite (H b) by now left.
  rewrite IH; [reflexivity |]. intros b' Hb'. apply H. now right.
Qed.

(** Encoding reads the fields' names only: setting a key that no field
    is named after changes neither the result of [fromMap] nor, for a key
    other than ["constructor"], the result of [fromObject]. *)
Theorem encode_ignores_other_keys
    (S : ConfigBits) (entries : list (string * Prim)) (k : string) (x : Prim) :
  ~ In k (map name (bitMap S)) ->
  fromMap S (VMap (map_set entries k x)) = fromMap S (VMap entries) /\
  (own entries "constructor" = None -> k <> "constructor" ->
   fromObject S (VObject (obj_set entries k x)) = fromObject S (VObject entries)).
Proof.
  intros Hk. split.
  - rewrite !fromMap_present. f_equal. apply encode_present_ext.
    intros b Hb. apply own_map_set_other. intros E. apply Hk.
    rewrite <- E. now apply in_map.
  - intros Hc Hne. rewrite !fromObject_present; try assumption.
    + f_equal. apply encode_present_ext.
      intros b Hb. apply own_obj_set_other. intros E. apply Hk.
      rewrite <- E. now apply in_map.
    + rewrite own_obj_set_other; [assumption | congruence].
Qed.

Lemma encode_ignores_other_keys_witness :
  fromMap (mkConfigBits [mkBitMap "a" 2%N CNumber; mkBitMap "b" 1%N CBoolean])
          (VMap (map_set [("a", PNum (num_of_Z 3))] "note" (PNum (num_of_Z 255))))
  = fromMap (mkConfigBits [mkBitMap "a" 2%N CNumber; mkBitMap "b" 1%N CBoolean])
            (VMap [("a", PNum (num_of_Z 3))]) /\
  (own [("a", PNum (num_of_Z 3))] "constructor" = None ->
   "note" <> "constructor" ->
   fromObject (mkConfigBits [mkBitMap "a" 2%N CNumber; mkBitMap "b" 1%N CBoolean])
              (VObject (obj_set [("a", PNum (num_of_Z 3))] "note"
                                (PNum (num_of_Z 255))))
   = fromObject (mkConfigBits [mkBitMap "a" 2%N CNumber; mkBitMap "b" 1%N CBoolean])
                (VObject [("a", PNum (num_of_Z 3))])).
Proof.
  apply (encode_ignores_other_keys
           (mkConfigBits [mkBitMap "a" 2%N CNumber; mkBitMap "b" 1%N CBoolean])
           [("a", PNum (num_of_Z 3))] "note" (PNum (num_of_Z 255))).
  simpl. intuition discriminate.
Defined.

(** ** Round trips *)

Lemma own_In (m : list (string * Prim)) (k : string) (x : Prim) :
  NoDup (map fst m) -> In (k, x) m -> own m k = Some x.
Proof.
  induction m as [| [j y] m IH]; intros Hnd Hin; simpl in *; [contradiction |].
  inversion Hnd as [| ? ? Hj Hrest]; subst.
  destruct Hin as [E | Hin].
  - injection E as -> ->. now rewrite String.eqb_refl.
  - destruct (String.eqb_spec j k) as [-> | Hne]; [| now apply IH].
    elim Hj. change k with (fst (k, x)). now apply in_map.
Qed.

Lemma encode_decoded_low_bits (v : Z) (o : Obj) (fields : list BitMap) :
  Forall BitMap_inv fields -> total_bits fields <= 32 ->
  (forall k x, In (k, x) (field_entries fields (num_of_Z v) 0) ->
               own o k = Some x) ->
  encode_present fields o 0 = wrap32 (v mod 2 ^ total_bits fields).
Proof.
  intros Hinv Hsum Hown. pose proof (total_bits_nonneg fields).
  rewrite (encode_present_decoded v) by (assumption || lia).
  rewrite Z.shiftl_0_r. unfold extract.
  now rewrite Z.shiftr_0_r, Z.land_ones by lia.
Qed.

Lemma low_bits_cases (v w : Z) :
  0 <= w <= 32 ->
  (w = 32 -> - 2 ^ 31 <= v < 2 ^ 31 -> wrap32 (v mod 2 ^ w) = v) /\
  (0 <= v < 2 ^ w -> v < 2 ^ 31 -> wrap32 (v mod 2 ^ w) = v).
Proof.
  intros Hw. split.
  - intros -> Hv. rewrite <- (wrap32_id v) at 2 by assumption.
    apply wrap32_mod_eq, Z.mod_mod. lia.
  - intros Hv H31. rewrite Z.mod_small by assumption. apply wrap32_id. lia.
Qed.

(** Through a Map, decoding then encoding keeps the low bits: for a
    constructed schema of total width [w] with pairwise distinct field
    names, whatever they are, and every integer input that decoding
    accepts, [fromMap(toMap(v))] is [v mod 2^w] read as a signed 32-bit
    integer.  It is [v] itself for every non-negative [v] below [2^w]
    and [2^31], and, when the schema uses all 32 bits, for every signed
    32-bit integer. *)
Theorem toMap_fromMap_low_bits
    (l : list (Value * Value * Value)) (S : ConfigBits) (v : Z) :
  build l = Ok S ->
  NoDup (map name (bitMap S)) ->
  - 2 ^ 31 <= v <= 2 ^ 32 - 1 ->
  exists m r,
    toMap S (VNum (num_of_Z v)) = Ok m /\
    fromMap S (VMap m) = Ok r /\
    r = wrap32 (v mod 2 ^ total_bits (bitMap S)) /\
    (total_bits (bitMap S) = 32 -> - 2 ^ 31 <= v < 2 ^ 31 -> r = v) /\
    (0 <= v < 2 ^ total_bits (bitMap S) -> v < 2 ^ 31 -> r = v).
Proof.
  intros HS Hnd Hv. apply build_inv in HS as [Hsum Hinv].
  pose proof (total_bits_nonneg (bitMap S)) as Hw.
  exists (field_entries (bitMap S) (num_of_Z v) 0).
  exists (wrap32 (v mod 2 ^ total_bits (bitMap S))).
  split; [| split; [| split; [reflexivity |]]].
  - unfold toMap. pass_constructor_tests.
    rewrite in_range_accepted by assumption.
    now rewrite toMap_loop_fresh by (assumption || reflexivity).
  - rewrite fromMap_present. f_equal.
    apply encode_decoded_low_bits; try assumption.
    intros k x Hin. apply own_In; [| assumption].
    now rewrite field_entries_names.
  - apply low_bits_cases. lia.
Qed.

Lemma toMap_fromMap_low_bits_witness :
  exists m r,
    toMap (mkConfigBits [mkBitMap "__proto__" 16%N CNumber;
                         mkBitMap "constructor" 16%N CNumber])
          (VNum (num_of_Z (-2))) = Ok m /\
    fromMap (mkConfigBits [mkBitMap "__proto__" 16%N CNumber;
                           mkBitMap "constructor" 16%N CNumber])
            (VMap m) = Ok r /\
    r = wrap32 (-2 mod 2 ^ total_bits [mkBitMap "__proto__" 16%N CNumber;
                                       mkBitMap "constructor" 16%N CNumber]) /\
    (total_bits [mkBitMap "__proto__" 16%N CNumber;
                 mkBitMap "constructor" 16%N CNumber] = 32 ->
     - 2 ^ 31 <= -2 < 2 ^ 31 -> r = -2) /\
    (0 <= -2 < 2 ^ total_bits [mkBitMap "__proto__" 16%N CNumber;
                               mkBitMap "constructor" 16%N CNumber] ->
     -2 < 2 ^ 31 -> r = -2).
Proof.
  apply (toMap_fromMap_low_bits
           [(VStr "__proto__", VNum (num_of_Z 16), VUndefined);
            (VStr "constructor", VNum (num_of_Z 16), VUndefined)]
           (mkConfigBits [mkBitMap "__proto__" 16%N CNumber;
                          mkBitMap "constructor" 16%N CNumber]) (-2)).
  - reflexivity.
  - repeat constructor; simpl; intuition discriminate.
  - vm_compute. split; discriminate.
Defined.

(** Through an object the same holds when, besides, no field is named
    ["__proto__"] or ["constructor"]: for every integer input that
    decoding accepts, [fromObject(toObject(v))] is [v mod 2^w] read as a
    signed 32-bit integer, hence [v] itself for every signed 32-bit
    integer when the schema uses all 32 bits. *)
Theorem toObject_fromObject_low_bits
    (l : list (Value * Value * Value)) (S : ConfigBits) (v : Z) :
  build l = Ok S ->
  NoDup (map name (bitMap S)) ->
  ~ In "__proto__" (map name (bitMap S)) ->
  ~ In "constructor" (map name (bitMap S)) ->
  - 2 ^ 31 <= v <= 2 ^ 32 - 1 ->
  exists o r,
    toObject S (VNum (num_of_Z v)) = Ok o /\
    fromObject S (VObject o) = Ok r /\
    r = wrap32 (v mod 2 ^ total_bits (bitMap S)) /\
    (total_bits (bitMap S) = 32 -> - 2 ^ 31 <= v < 2 ^ 31 -> r = v).
Proof.
  intros HS Hnd Hproto Hctor Hv. apply build_inv in HS as [Hsum Hinv].
  pose proof (total_bits_nonneg (bitMap S)) as Hw.
  set (entries := field_entries (bitMap S) (num_of_Z v) 0).
  assert (Hnames : map fst entries = map name (bitMap S))
    by apply field_entries_names.
  exists (obj_of_entries entries).
  exists (wrap32 (v mod 2 ^ total_bits (bitMap S))).
  split; [| split; [| split; [reflexivity |]]].
  - unfold toObject. pass_constructor_tests.
    rewrite in_range_accepted by assumption.
    now rewrite toObject_loop_entries.
  - rewrite fromObject_present.
    + f_equal. apply encode_decoded_low_bits; try assumption.
      intros k x Hin. apply own_fold_in; rewrite ?Hnames; assumption.
    + unfold obj_of_entries. rewrite own_fold_other; [reflexivity |].
      now rewrite Hnames.
  - apply low_bits_cases. lia.
Qed.

Lemma toObject_fromObject_low_bits_witness :
  exists o r,
    toObject (mkConfigBits [mkBitMap "lo" 16%N CNumber; mkBitMap "hi" 16%N CNumber])
             (VNum (num_of_Z (-2))) = Ok o /\
    fromObject (mkConfigBits [mkBitMap "lo" 16%N CNumber; mkBitMap "hi" 16%N CNumber])
               (VObject o) = Ok r /\
    r = wrap32 (-2 mod 2 ^ total_bits [mkBitMap "lo" 16%N CNumber;
                                       mkBitMap "hi" 16%N CNumber]) /\
    (total_bits [mkBitMap "lo" 16%N CNumber; mkBitMap "hi" 16%N CNumber] = 32 ->
     - 2 ^ 31 <= -2 < 2 ^ 31 -> r = -2).
Proof.
  apply (toObject_fromObject_low_bits
           [(VStr "lo", VNum (num_of_Z 16), VUndefined);
            (VStr "hi", VNum (num_of_Z 16), VUndefined)]
           (mkConfigBits [mkBitMap "lo" 16%N CNumber; mkBitMap "hi" 16%N CNumber])
           (-2)).
  - reflexivity.
  - repeat constructor; simpl; intuition discriminate.
  - simpl; intuition discriminate.
  - simpl; intuition discriminate.
  - vm_compute. split; discriminate.
Defined.

Lemma extract_sum (X z c p w : Z) :
  0 <= p -> 0 <= w -> 0 <= X < 2 ^ p -> 0 <= z < 2 ^ w ->
  extract (X + z * 2 ^ p + c * 2 ^ (p + w)) p w = z.
Proof.
  intros Hp Hw HX Hz. unfold extract.
  rewrite Z.shiftr_div_pow2, Z.land_ones by lia.
  assert (0 < 2 ^ p) by (apply Z.pow_pos_nonneg; lia).
  assert (0 < 2 ^ w) by (apply Z.pow_pos_nonneg; lia).
  replace (X + z * 2 ^ p + c * 2 ^ (p + w))
    with (X + (z + c * 2 ^ w) * 2 ^ p)
    by (rewrite Z.pow_add_r by lia; ring).
  rewrite Z.div_add, Z.div_small by lia. simpl.
  rewrite Z.mod_add by lia. now apply Z.mod_small.
Qed.

Lemma extract_wrap32 (P p w : Z) :
  0 <= p -> 0 <= w -> p + w <= 32 ->
  extract (wrap32 P) p w = extract P p w.
Proof.
  intros Hp Hw Hpw. apply Z.bits_inj'. intros k Hk.
  rewrite !extract_testbit by assumption.
  destruct (Z.leb_spec 0 k), (Z.ltb_spec k w); simpl; try reflexivity.
  rewrite wrap32_testbit by lia.
  now replace (Z.min (k + p) 31) with (k + p) by lia.
Qed.

Lemma typed_value_fits (m : JsMap) (b : BitMap) (x : Prim) :
  BitMap_inv b -> typed_value b x -> own m (name b) = Some x ->
  fits m b /\ 0 <= int_value x < 2 ^ bits b.
Proof.
  intros Hinv Ht Hown. unfold fits. rewrite Hown. unfold typed_value in Ht.
  assert (Hnum : (exists z, x = PNum (num_of_Z z) /\
                            0 <= z < 2 ^ bits b /\ z < 2 ^ 31) ->
                 match x with
                 | PNum n => exists z, n = num_of_Z z /\ 0 <= z < 2 ^ bits b
                 | PBool t => t = true -> 1 <= bits b
                 end /\ 0 <= int_value x < 2 ^ bits b).
  { intros (z & -> & Hz & _). simpl. rewrite trunc_inject_Z. split; eauto. }
  destruct (dataType b) eqn:Ed; try (now apply Hnum).
  destruct Ht as [t ->]. rewrite (Hinv Ed). change (2 ^ 1) with 2.
  destruct t; simpl; split; lia.
Qed.

(** The value decoded for a field from an encoding that was composed
    from typed entries is the entry's value. *)
Lemma field_value_of_pattern (m0 : JsMap) (b : BitMap) (x : Prim)
    (X c p : Z) :
  BitMap_inv b -> typed_value b x ->
  0 <= p -> p + bits b <= 32 -> 0 <= X < 2 ^ p ->
  0 <= int_value x < 2 ^ bits b ->
  0 <= X + int_value x * 2 ^ p + c * 2 ^ (p + bits b) < 2 ^ 32 ->
  field_value
    (num_of_Z (wrap32 (X + int_value x * 2 ^ p + c * 2 ^ (p + bits b)))) p b
  = x.
Proof.
  intros Hinv Ht Hp Hpw HX Hz HP. pose proof (bits_nonneg b) as Hw.
  rewrite field_value_decoded by assumption.
  set (P := X + int_value x * 2 ^ p + c * 2 ^ (p + bits b)) in *.
  assert (Hex : extract (wrap32 P) p (bits b) = int_value x).
  { rewrite extract_wrap32 by assumption. now apply extract_sum. }
  unfold decoded_value, typed_value in *.
  assert (Hnum : (exists z, x = PNum (num_of_Z z) /\
                            0 <= z < 2 ^ bits b /\ z < 2 ^ 31) ->
                 PNum (num_of_Z (if bits b =? 32 then wrap32 (wrap32 P)
                                 else extract (wrap32 P) p (bits b))) = x).
  { intros (z & -> & Hzb & Hz31). simpl in Hex, Hz.
    rewrite trunc_inject_Z in Hex, Hz. do 2 f_equal.
    destruct (Z.eqb_spec (bits b) 32) as [E | Hne]; [| exact Hex].
    rewrite wrap32_idem. rewrite <- Hex. rewrite E.
    assert (p = 0) by lia. subst p. unfold extract.
    rewrite Z.shiftr_0_r, Z.land_ones by lia.
    rewrite wrap32_mod. unfold extract in Hex.
    rewrite E, Z.shiftr_0_r, Z.land_ones, wrap32_mod in Hex by lia.
    rewrite Hex. rewrite Z.mod_small in Hex by lia.
    rewrite Hex. apply wrap32_id. lia. }
  destruct (dataType b) eqn:Ed; try (now apply Hnum).
  destruct Ht as [t ->]. rewrite Hex. now destruct t.
Qed.

Lemma typed_entries_fit (m0 : JsMap) (fields : list BitMap) (m : JsMap) :
  Forall2 (fun b e => fst e = name b /\ typed_value b (snd e) /\
                      own m0 (name b) = Some (snd e)) fields m ->
  Forall BitMap_inv fields ->
  Forall (fits m0) fields.
Proof.
  induction 1 as [| b e fs ms (_ & T & Hown) _ IH]; intros Hinv;
    [constructor |].
  apply Forall_cons_iff in Hinv as [Hb Hinv']. constructor; [| now apply IH].
  eapply typed_value_fits; eassumption.
Qed.

Lemma field_entries_of_pattern (m0 : JsMap) (P : Z) :
  0 <= P < 2 ^ 32 ->
  forall (fields : list BitMap) (m : JsMap) (p X : Z),
    Forall2 (fun b e => fst e = name b /\ typed_value b (snd e) /\
                        own m0 (name b) = Some (snd e)) fields m ->
    Forall BitMap_inv fields ->
    0 <= p -> p + total_bits fields <= 32 -> 0 <= X < 2 ^ p ->
    P = X + pattern fields m0 p ->
    field_entries fields (num_of_Z (wrap32 P)) p = m.
Proof.
  intros HP fields m p X H. revert p X.
  induction H as [| b [k x] fields m (Hk & Ht & Hown) Hrest IH];
    intros p X Hinv Hp Hsum HX HPX; simpl; [reflexivity |].
  apply Forall_cons_iff in Hinv as [Hb Hinv']. simpl in *. subst k.
  pose proof (bits_nonneg b) as Hw.
  pose proof (total_bits_nonneg fields) as Hws.
  destruct (typed_value_fits m0 b x Hb Ht Hown) as [Hfit Hz].
  assert (Hfits : Forall (fits m0) fields)
    by (eapply typed_entries_fit; eassumption).
  destruct (encode_present_pattern fields m0 (p + bits b))
    as (c & Hc & Hpat & _); try assumption; try lia.
  rewrite Hown in HPX. rewrite Hpat in HPX.
  assert (0 < 2 ^ p) by (apply Z.pow_pos_nonneg; lia).
  f_equal.
  - assert (HP' : 0 <= X + int_value x * 2 ^ p + c * 2 ^ (p + bits b) < 2 ^ 32)
      by (rewrite <- Z.add_assoc, <- HPX; exact HP).
    f_equal. rewrite HPX, Z.add_assoc.
    apply (field_value_of_pattern m0); (assumption || lia).
  - assert (0 <= X + int_value x * 2 ^ p < 2 ^ (p + bits b))
      by (rewrite Z.pow_add_r by lia; nia).
    apply (IH (p + bits b) (X + int_value x * 2 ^ p)); try assumption; lia.
Qed.

Lemma typed_entries_own (m0 : JsMap) (fields : list BitMap) (m : JsMap) :
  typed_entries fields m ->
  (forall e, In e m -> own m0 (fst e) = Some (snd e)) ->
  Forall2 (fun b e => fst e = name b /\ typed_value b (snd e) /\
                      own m0 (name b) = Some (snd e)) fields m.
Proof.
  induction 1 as [| b e fs ms [E T] _ IH]; intros Hall; constructor.
  - repeat split; try assumption. rewrite <- E. apply Hall. now left.
  - apply IH. intros e' He'. apply Hall. now right.
Qed.

Lemma typed_entries_round (fields : list BitMap) (m : JsMap) :
  Forall BitMap_inv fields -> total_bits fields <= 32 ->
  NoDup (map name fields) ->
  typed_entries fields m ->
  map fst m = map name fields /\
  - 2 ^ 31 <= encode_present fields m 0 < 2 ^ 31 /\
  field_entries fields (num_of_Z (encode_present fields m 0)) 0 = m.
Proof.
  intros Hinv Hsum Hnd Ht.
  pose proof (total_bits_nonneg fields) as Hw.
  assert (Hnames : map fst m = map name fields).
  { clear - Ht. induction Ht as [| b e ? ? [E _] _ IH]; simpl;
      [reflexivity | now rewrite E, IH]. }
  assert (HR : Forall2 (fun b e => fst e = name b /\ typed_value b (snd e) /\
                                   own m (name b) = Some (snd e)) fields m).
  { apply typed_entries_own; [assumption |].
    intros [k x] Hin. apply own_In; [now rewrite Hnames | assumption]. }
  assert (Hfits : Forall (fits m) fields)
    by (eapply typed_entries_fit; eassumption).
  destruct (encode_present_pattern fields m 0) as (c & Hc & Hpat & Henc);
    try assumption; try lia.
  assert (2 ^ total_bits fields <= 2 ^ 32) by (apply Z.pow_le_mono_r; lia).
  split; [assumption | split; [apply encode_present_range |]].
  rewrite Henc.
  apply (field_entries_of_pattern m (pattern fields m 0)) with (X := 0);
    try assumption; lia.
Qed.

(** Encoding then decoding through a Map gives the entries back: for a
    constructed schema with pairwise distinct field names and a Map that
    holds, in schema order, one entry per field with a value of the
    field's kind and size, [fromMap] returns an integer that [toMap]
    decodes to the same Map. *)
Theorem fromMap_toMap_identity
    (l : list (Value * Value * Value)) (S : ConfigBits) (m : JsMap) :
  build l = Ok S ->
  NoDup (map name (bitMap S)) ->
  typed_entries (bitMap S) m ->
  exists r,
    fromMap S (VMap m) = Ok r /\
    toMap S (VNum (num_of_Z r)) = Ok m.
Proof.
  intros HS Hnd Ht. apply build_inv in HS as [Hsum Hinv].
  destruct (typed_entries_round (bitMap S) m) as (_ & Hr & Hm);
    try assumption.
  exists (encode_present (bitMap S) m 0). split.
  - apply fromMap_present.
  - unfold toMap. pass_constructor_tests.
    rewrite in_range_accepted by lia.
    rewrite toMap_loop_fresh by (assumption || reflexivity). simpl.
    now rewrite Hm.
Qed.

Lemma fromMap_toMap_identity_witness :
  exists r,
    fromMap (mkConfigBits [mkBitMap "on" 1%N CBoolean; mkBitMap "level" 31%N CNumber])
            (VMap [("on", PBool true); ("level", PNum (num_of_Z 1073741824))])
    = Ok r /\
    toMap (mkConfigBits [mkBitMap "on" 1%N CBoolean; mkBitMap "level" 31%N CNumber])
          (VNum (num_of_Z r))
    = Ok [("on", PBool true); ("level", PNum (num_of_Z 1073741824))].
Proof.
  apply (fromMap_toMap_identity
           [(VStr "on", VNum (num_of_Z 1), VCtor CBoolean);
            (VStr "level", VNum (num_of_Z 31), VUndefined)]
           (mkConfigBits [mkBitMap "on" 1%N CBoolean; mkBitMap "level" 31%N CNumber])
           [("on", PBool true); ("level", PNum (num_of_Z 1073741824))]).
  - reflexivity.
  - repeat constructor; simpl; intuition discriminate.
  - repeat constructor.
    + exists true. reflexivity.
    + exists 1073741824. split; [reflexivity |].
      vm_compute. repeat split; discriminate.
Defined.

(** The same through an object, when besides no field name is an array
    index, ["__proto__"] or ["constructor"]: for an object that holds, in
    schema order, one property per field with a value of the field's
    kind and size, [fromObject] returns an integer that [toObject]
    decodes to the same object. *)
Theorem fromObject_toObject_identity
    (l : list (Value * Value * Value)) (S : ConfigBits) (o : Obj) :
  build l = Ok S ->
  NoDup (map name (bitMap S)) ->
  Forall (fun b => ordinary_name (name b)) (bitMap S) ->
  ~ In "constructor" (map name (bitMap S)) ->
  typed_entries (bitMap S) o ->
  exists r,
    fromObject S (VObject o) = Ok r /\
    toObject S (VNum (num_of_Z r)) = Ok o.
Proof.
  intros HS Hnd Hord Hctor Ht. apply build_inv in HS as [Hsum Hinv].
  destruct (typed_entries_round (bitMap S) o) as (Hnames & Hr & Ho);
    try assumption.
  assert (Hown : own o "constructor" = None).
  { destruct (own o "constructor") as [x |] eqn:E; [| reflexivity].
    elim Hctor. rewrite <- Hnames. clear - E.
    induction o as [| [k y] o IH]; simpl in *; [discriminate |].
    destruct (String.eqb_spec k "constructor"); [now left | right; auto]. }
  exists (encode_present (bitMap S) o 0). split.
  - now apply fromObject_present.
  - unfold toObject. pass_constructor_tests.
    rewrite in_range_accepted by lia.
    rewrite toObject_loop_toMap_loop by assumption.
    rewrite toMap_loop_fresh by (assumption || reflexivity). simpl.
    now rewrite Ho.
Qed.

Lemma fromObject_toObject_identity_witness :
  exists r,
    fromObject (mkConfigBits [mkBitMap "on" 1%N CBoolean; mkBitMap "level" 31%N CNumber])
               (VObject [("on", PBool true); ("level", PNum (num_of_Z 1073741824))])
    = Ok r /\
    toObject (mkConfigBits [mkBitMap "on" 1%N CBoolean; mkBitMap "level" 31%N CNumber])
             (VNum (num_of_Z r))
    = Ok [("on", PBool true); ("level", PNum (num_of_Z 1073741824))].
Proof.
  apply (fromObject_toObject_identity
           [(VStr "on", VNum (num_of_Z 1), VCtor CBoolean);
            (VStr "level", VNum (num_of_Z 31), VUndefined)]
           (mkConfigBits [mkBitMap "on" 1%N CBoolean; mkBitMap "level" 31%N CNumber])
           [("on", PBool true); ("level", PNum (num_of_Z 1073741824))]).
  - reflexivity.
  - repeat constructor; simpl; intuition discriminate.
  - repeat constructor; discriminate.
  - simpl; intuition discriminate.
  - repeat constructor.
    + exists true. reflexivity.
    + exists 1073741824. split; [reflexivity |].
      vm_compute. repeat split; discriminate.
Defined.

(** ** The properties of a decoded object *)

Lemma insert_index_length (o : Obj) (k : string) (i : N) (x : Prim) :
  List.length (insert_index o k i x) = Datatypes.S (List.length o).
Proof.
  induction o as [| [j y] o IH]; simpl; [reflexivity |].
  destruct (array_index j) as [n |]; [destruct (i <? n)%N |]; simpl;
    try reflexivity.
  now rewrite IH.
Qed.

Lemma obj_set_fresh_length (o : Obj) (k : string) (x : Prim) :
  own o k = None ->
  List.length (obj_set o k x)
  = if String.eqb k "__proto__" then List.length o
    else Datatypes.S (List.length o).
Proof.
  intros H. unfold obj_set. rewrite H.
  destruct (String.eqb k "__proto__"); [reflexivity |].
  destruct (array_index k).
  - apply insert_index_length.
  - rewrite length_app. simpl. lia.
Qed.

Lemma toObject_loop_length (fields : list BitMap) (n : Num) :
  forall p o,
    NoDup (map name fields) ->
    (forall b, In b fields -> own o (name b) = None) ->
    List.length (toObject_loop fields n p o)
    = (List.length o
       + List.length
           (filter (fun b => negb (String.eqb (name b) "__proto__")) fields))%nat.
Proof.
  induction fields as [| b fields IH]; intros p o Hnd Hfresh; simpl.
  - lia.
  - inversion Hnd as [| ? ? Hb Hrest]; subst.
    rewrite IH; try assumption.
    + rewrite obj_set_fresh_length by (apply Hfresh; now left).
      destruct (String.eqb (name b) "__proto__"); simpl; lia.
    + intros b' Hin. rewrite own_obj_set_other; [apply Hfresh; now right |].
      intros E. apply Hb. rewrite <- E. now apply in_map.
Qed.

(** When the field names are pairwise distinct, a decoded object has one
    property for each field not named ["__proto__"], and none for a field
    of that name: decoding omits no other field, whatever the input. *)
Theorem toObject_property_count (S : ConfigBits) (v : Value) (o : Obj) :
  NoDup (map name (bitMap S)) ->
  toObject S v = Ok o ->
  List.length o
  = List.length
      (filter (fun b => negb (String.eqb (name b) "__proto__")) (bitMap S)) /\
  own o "__proto__" = None.
Proof.
  intros Hnd H. unfold toObject in H.
  destruct (negb (has_constructor v CNumber)); [discriminate |].
  destruct (num_gt (number_of v) 4294967295
            || num_lt (number_of v) (-2147483648)); [discriminate |].
  injection H as <-. split.
  - now rewrite toObject_loop_length by (assumption || reflexivity).
  - rewrite toObject_loop_entries.
    generalize (field_entries (bitMap S) (number_of v) 0).
    assert (G : forall entries o0,
               own o0 "__proto__" = None ->
               own (fold_left (fun o e => obj_set o (fst e) (snd e)) entries o0)
                   "__proto__" = None).
    { induction entries as [| [k x] entries IH]; intros o0 H0; simpl;
        [assumption |].
      apply IH. destruct (String.eqb_spec k "__proto__") as [-> | Hne].
      - unfold obj_set. rewrite H0. simpl. assumption.
      - rewrite own_obj_set_other; [assumption | congruence]. }
    intros entries. now apply G.
Qed.

Lemma toObject_property_count_witness :
  List.length [("a", PNum (num_of_Z 1)); ("b", PNum (num_of_Z 0))]
  = List.length
      (filter (fun b => negb (String.eqb (name b) "__proto__"))
              [mkBitMap "a" 1%N CNumber; mkBitMap "__proto__" 1%N CNumber;
               mkBitMap "b" 1%N CNumber]) /\
  own [("a", PNum (num_of_Z 1)); ("b", PNum (num_of_Z 0))] "__proto__" = None.
Proof.
  apply (toObject_property_count
           (mkConfigBits [mkBitMap "a" 1%N CNumber; mkBitMap "__proto__" 1%N CNumber;
                          mkBitMap "b" 1%N CNumber])
           (VNum (num_of_Z 3))).
  - repeat constructor; simpl; intuition discriminate.
  - reflexivity.
Defined.

(** ** The tests of the two decoders *)

(** [toObject] and [toMap] make the same two tests.  An input whose
    [constructor] is not [Number] is refused with [TypeError]; a number
    above 2^32 - 1 or below -2^31, an infinity included, is refused with
    [RangeError]; every integer from -2^31 to 2^32 - 1 is decoded. *)
Theorem decode_type_and_range_checks (S : ConfigBits) :
  (forall v, has_constructor v CNumber = false ->
     toObject S v = Throw TypeError /\ toMap S v = Throw TypeError) /\
  (forall q, (inject_Z 4294967295 < q)%Q \/ (q < inject_Z (-2147483648))%Q ->
     toObject S (VNum (Fin q)) = Throw RangeError /\
     toMap S (VNum (Fin q)) = Throw RangeError) /\
  (toObject S (VNum PosInf) = Throw RangeError /\
   toObject S (VNum NegInf) = Throw RangeError /\
   toMap S (VNum PosInf) = Throw RangeError /\
   toMap S (VNum NegInf) = Throw RangeError) /\
  (forall z, - 2 ^ 31 <= z <= 2 ^ 32 - 1 ->
     (exists o, toObject S (VNum (num_of_Z z)) = Ok o) /\
     (exists m, toMap S (VNum (num_of_Z z)) = Ok m)).
Proof.
  split; [| split; [| split]].
  - intros v H. unfold toObject, toMap. now rewrite H.
  - intros q H.
    assert (E : num_gt (Fin q) 4294967295 || num_lt (Fin q) (-2147483648)
                = true).
    { destruct H as [H | H].
      - now rewrite num_gt_Fin_true.
      - rewrite num_lt_Fin_true by assumption. apply orb_true_r. }
    unfold toObject, toMap. pass_constructor_tests. now rewrite E.
  - repeat split.
  - intros z Hz. unfold toObject, toMap. pass_constructor_tests.
    rewrite in_range_accepted by assumption.
    split; eexists; reflexivity.
Qed.

Lemma decode_type_and_range_checks_witness :
  (toObject (mkConfigBits [mkBitMap "a" 4%N CNumber]) (VStr "13")
     = Throw TypeError /\
   toMap (mkConfigBits [mkBitMap "a" 4%N CNumber]) (VStr "13")
     = Throw TypeError) /\
  (toObject (mkConfigBits [mkBitMap "a" 4%N CNumber])
            (VNum (Fin (inject_Z 4294967296))) = Throw RangeError /\
   toMap (mkConfigBits [mkBitMap "a" 4%N CNumber])
         (VNum (Fin (inject_Z 4294967296))) = Throw RangeError) /\
  ((exists o, toObject (mkConfigBits [mkBitMap "a" 4%N CNumber])
                       (VNum (num_of_Z (-2147483648))) = Ok o) /\
   (exists m, toMap (mkConfigBits [mkBitMap "a" 4%N CNumber])
                    (VNum (num_of_Z (-2147483648))) = Ok m)).
Proof.
  destruct (decode_type_and_range_checks
              (mkConfigBits [mkBitMap "a" 4%N CNumber])) as (H1 & H2 & _ & H4).
  split; [| split].
  - apply H1. reflexivity.
  - apply H2. left. reflexivity.
  - apply H4. vm_compute. split; discriminate.
Defined.
